(** * git-commit-tracker: the contribution aggregation pipeline

    A shallow embedding of the TypeScript services of the EOD GitHub
    contribution tracker:

    - [GitHubService]  (src/services/GitHubService.ts): branch sampling and
      the per-repository commit merge of [getCommitsForRepo];
    - [EODProcessor]   (src/services/EODProcessor.ts): the event filter and
      the grouping of commits into one Contribution per repository;
    - [Reporter]       (src/services/Reporter.ts): [sortAndDedup];
    - [Main]           (src/main.ts): [validateConfig], short repository
      name resolution, [fetchEvents] and the day-fallback controller;
    - [EODProcessorSorted], [FileUtil], [WhatsAppService] (under src/src):
      the newer copy of [process], [getLatestFile] and [formatContent].

    Conventions of the embedding.

    - An ISO-8601 instant ([created_at], [timestamp], [since], [until]) and
      a JavaScript [Date] are both carried as the number of milliseconds
      since the epoch they denote ([Date.getTime()]), a [Z].  Strings that do
      not parse as a date are outside the model.
    - The local calendar day is computed for a fixed offset [tz] (in
      milliseconds) between local time and UTC; a change of offset in the
      middle of a day is outside the model.
    - [Array.prototype.sort] is stable; with the consistent comparator used
      here its result is the one of any stable sort, and it is written as a
      stable insertion sort.
    - A JavaScript [Map] iterates in the order of first insertion of its
      keys, and [set] on a key that is present replaces the value in place:
      it is an association list.
    - Network calls, thrown errors and the calls into the Reporter are
      explicit: a computation returns the list of effects it performed
      together with its outcome.  A call of [print] or [writeToFile]
      returns; within one fetch the remote answers a request the same way
      each time it is made. *)

From stdpp Require Import base list strings gmap sorting pretty.
From Stdlib Require Import ZArith Lia Ascii.

Open Scope string_scope.
Open Scope list_scope.
Open Scope Z_scope.

(** ** JavaScript built-ins used by the services *)

Module JS.

(** [s.split(sep)] for a one-character separator. *)
Fixpoint split (sep : ascii) (s : string) : list string :=
  match s with
  | EmptyString => [EmptyString]
  | String c s' =>
      if Ascii.eqb c sep then EmptyString :: split sep s'
      else match split sep s' with
           | [] => [String c EmptyString]
           | hd :: tl => String c hd :: tl
           end
  end.

(** [s.includes(c)] for a one-character needle. *)
Fixpoint includes (c : ascii) (s : string) : bool :=
  match s with
  | EmptyString => false
  | String c' s' => Ascii.eqb c' c || includes c s'
  end.

(** [l.slice(0, e)]: a negative end counts from the end of the array. *)
Definition slice0 {A} (l : list A) (e : Z) : list A :=
  let len := Z.of_nat (length l) in
  let stop := if e <? 0 then Z.max (len + e) 0 else Z.min e len in
  take (Z.to_nat stop) l.

(** Truthiness of an optional string: [undefined] and [""] are falsy. *)
Definition truthy (o : option string) : bool :=
  match o with
  | Some s => negb (String.eqb s "")
  | None => false
  end.

(** One step of a stable insertion sort: [x] stood before every element
    of [l] in the input, so it moves right only past the elements the
    comparator puts strictly before it ([compareFn x y > 0]). *)
Fixpoint sort_insert {A} (compareFn : A → A → Z) (x : A) (l : list A)
    : list A :=
  match l with
  | [] => [x]
  | y :: l' =>
      if 0 <? compareFn x y then y :: sort_insert compareFn x l'
      else x :: l
  end.

(** [[...l].sort(compareFn)]. *)
Definition sort {A} (compareFn : A → A → Z) (l : list A) : list A :=
  foldr (sort_insert compareFn) [] l.

(** [Map.prototype.set]. *)
Fixpoint Map_set {K V} `{EqDecision K} (k : K) (v : V)
    (m : list (K * V)) : list (K * V) :=
  match m with
  | [] => [(k, v)]
  | (k', v') :: m' =>
      if decide (k = k') then (k', v) :: m'
      else (k', v') :: Map_set k v m'
  end.

(** [new Map(entries)]. *)
Definition Map_new {K V} `{EqDecision K} (entries : list (K * V))
    : list (K * V) :=
  foldl (λ m e, Map_set e.1 e.2 m) [] entries.

(** [Array.from(m.values())]. *)
Definition Map_values {K V} (m : list (K * V)) : list V := m.*2.

End JS.

(** ** Data model (src/types) *)

Record Commit := mkCommit {
  hash : string;
  message : string;
  author : string;
  timestamp : Z;
}.

Record Contribution := mkContribution {
  repo : string;
  commits : list Commit;
}.

(** An element of [payload.commits]. *)
Record PayloadCommit := mkPayloadCommit {
  sha : string;
  pc_message : string;
  author_name : string;
  author_email : option string;
}.

Record GitHubEvent := mkGitHubEvent {
  created_at : Z;
  type : string;
  repo_name : string;
  payload_commits : option (list PayloadCommit);
  actor : option string;
}.

#[global] Instance Commit_eq_dec : EqDecision Commit.
Proof. solve_decision. Defined.

#[global] Instance Contribution_eq_dec : EqDecision Contribution.
Proof. solve_decision. Defined.

(** ** Reporter (src/services/Reporter.ts) *)

Module Reporter.

(** The comparator handed to [sort]:
    [new Date(b.timestamp).getTime() - new Date(a.timestamp).getTime()]. *)
Definition compareFn (a b : Commit) : Z := timestamp b - timestamp a.

Definition sortAndDedup (commits : list Commit) : list Commit :=
  let sorted := JS.sort compareFn commits in
  JS.Map_values (JS.Map_new (map (λ c, (hash c, c)) sorted)).

(** Descending by timestamp. *)
Definition sortedDesc (l : list Commit) : Prop :=
  StronglySorted (λ a b, timestamp b ≤ timestamp a) l.

End Reporter.

(** ** Dates *)

Module DateJS.

Definition msPerDay : Z := 86400000.

(** [d.setHours(h, m, s, ms)] in the local zone [tz] milliseconds ahead of
    UTC: the local calendar day of [d] is kept, the time of day is
    replaced. *)
Definition setHours (tz d h m s ms : Z) : Z :=
  let localTime := d + tz in
  let midnight := localTime - localTime mod msPerDay in
  midnight + (h * 3600000 + m * 60000 + s * 1000 + ms) - tz.

(** [d.setDate(d.getDate() + n)], no change of offset in between. *)
Definition addDays (d n : Z) : Z := d + n * msPerDay.

Definition startOfDay (tz d : Z) : Z := setHours tz d 0 0 0 0.
Definition endOfDay (tz d : Z) : Z := setHours tz d 23 59 59 999.

End DateJS.

(** ** Effects: network calls, thrown errors, Reporter calls *)

(** An element of the response of [GET /repos/{owner}/{repo}/commits]. *)
Record ApiCommit := mkApiCommit {
  api_sha : string;
  commit_message : string;
  commit_author_name : string;
  commit_author_email : option string;
  api_author : option string;
}.

Inductive Request :=
| GetOrgRepos (org : string)
| GetUserRepos
| GetBranches (owner repo : string)
| GetCommits (owner repo : string) (since until : Z) (branch : string)
| GetUserPublicEvents (user : string).

Inductive Exn :=
| Error (msg : string)
| TypeError (msg : string)
| HttpError (status : Z).

(** A request, or a call of a method of the Reporter of
    src/services/Reporter.ts: [print] or [writeToFile]. *)
Inductive Effect :=
| Net (r : Request)
| Print (contributions : list Contribution) (date : Z)
| WriteToFile (contributions : list Contribution) (date : Z).

(** The remote side and the machine of one run: the local zone and what each
    request answers (a rejected request carries its error). *)
Record World := mkWorld {
  tz : Z;
  orgRepos : string → Exn + list string;
  userRepos : Exn + list string;
  branchesOf : string → string → Exn + list string;
  commitsOf : string → string → Z → Z → string → Exn + list ApiCommit;
  userPublicEvents : string → Exn + list GitHubEvent;
}.

Module Eff.

(** A computation: the effects performed, in order, and the outcome. *)
Definition M (A : Type) : Type := list Effect * (Exn + A).

Definition ret {A} (a : A) : M A := ([], inr a).

Definition bind {A B} (m : M A) (f : A → M B) : M B :=
  match m with
  | (t, inl e) => (t, inl e)
  | (t, inr a) => let '(t', r) := f a in (t ++ t', r)
  end.

Definition throw {A} (e : Exn) : M A := ([], inl e).

Definition perform (e : Effect) : M unit := ([e], inr tt).

(** [await client.get(...)]: the call is made, then it answers or
    rejects. *)
Definition await {A} (r : Request) (answer : Exn + A) : M A :=
  ([Net r], answer).

(** [try { m } catch (err) { h err }]. *)
Definition try_catch {A} (m : M A) (h : Exn → M A) : M A :=
  match m with
  | (t, inl e) => let '(t', r) := h e in (t ++ t', r)
  | (t, inr a) => (t, inr a)
  end.

(** [for (const x of l) { s = body(s, x) }]. *)
Fixpoint for_of {A S} (l : list A) (body : S → A → M S) (s : S) : M S :=
  match l with
  | [] => ret s
  | x :: l' => bind (body s x) (for_of l' body)
  end.

Definition trace {A} (m : M A) : list Effect := m.1.
Definition outcome {A} (m : M A) : Exn + A := m.2.

End Eff.

#[global] Instance M_ret : MRet Eff.M := @Eff.ret.
#[global] Instance M_bind : MBind Eff.M := λ A B f m, Eff.bind m f.

(** ** GitHubService (src/services/GitHubService.ts) *)

Module GitHubService.

Definition getOrgRepos (w : World) (org : string) : Eff.M (list string) :=
  Eff.await (GetOrgRepos org) (orgRepos w org).

Definition getUserRepos (w : World) : Eff.M (list string) :=
  Eff.await GetUserRepos (userRepos w).

Definition getUserPublicEvents (w : World) (username : string)
    : Eff.M (list GitHubEvent) :=
  Eff.await (GetUserPublicEvents username) (userPublicEvents w username).

Definition getBranchesForRepo (w : World) (repoFullName : string)
    : Eff.M (list string) :=
  let parts := JS.split "/" repoFullName in
  if negb (JS.truthy (parts !! 0%nat)) || negb (JS.truthy (parts !! 1%nat))
  then Eff.throw (Error ("Invalid repo format: " +:+ repoFullName))
  else
    let owner := default "" (parts !! 0%nat) in
    let repo := default "" (parts !! 1%nat) in
    Eff.await (GetBranches owner repo) (branchesOf w owner repo).

(** The branch sampling of [getCommitsForRepo] (lines 124-144). *)
Definition sampleBranches (branches : list string) (maxBranches : Z)
    : list string :=
  if Z.of_nat (length branches) >? maxBranches then
    let mainBranch :=
      snd <$> list_find (λ b, b = "main" ∨ b = "master") branches in
    let otherBranches :=
      filter (λ b, b ≠ "main" ∧ b ≠ "master") branches in
    let branches :=
      match mainBranch with Some b => [b] | None => [] end in
    branches ++
      JS.slice0 otherBranches (maxBranches - Z.of_nat (length branches))
  else branches.

(** The inner loop over one response: a commit is pushed unless its SHA
    has been processed. *)
Definition addUnique (st : list ApiCommit * gset string)
    (data : list ApiCommit) : list ApiCommit * gset string :=
  foldl (λ '(allCommits, processedCommits) commit,
           if decide (api_sha commit ∈ processedCommits)
           then (allCommits, processedCommits)
           else (allCommits ++ [commit],
                 {[api_sha commit]} ∪ processedCommits))
        st data.

Definition getCommitsForRepo (w : World) (repoFullName : string)
    (since until : Z) (maxBranches : Z) : Eff.M (list ApiCommit) :=
  let parts := JS.split "/" repoFullName in
  if negb (JS.truthy (parts !! 0%nat)) || negb (JS.truthy (parts !! 1%nat))
  then Eff.throw (Error ("Invalid repo format: " +:+ repoFullName))
  else
    let owner := default "" (parts !! 0%nat) in
    let repo := default "" (parts !! 1%nat) in
    branches ← getBranchesForRepo w repoFullName ;
    let branches := sampleBranches branches maxBranches in
    st ← Eff.for_of branches
           (λ st branch,
              Eff.try_catch
                (data ← Eff.await (GetCommits owner repo since until branch)
                          (commitsOf w owner repo since until branch) ;
                 Eff.ret (addUnique st data))
                (λ _, Eff.ret st))
           ([], ∅) ;
    Eff.ret st.1.

End GitHubService.

(** ** EODProcessor (src/services/EODProcessor.ts) *)

Module EODProcessor.

Record Config := mkConfig {
  targetRepos : list string;
  targetUsers : list string;
  date : Z;
}.

Definition isDateInRange (tz : Z) (cfg : Config) (eventDate : Z) : bool :=
  let start := DateJS.setHours tz (date cfg) 0 0 0 0 in
  let end_ := DateJS.setHours tz (date cfg) 23 59 59 999 in
  (start <=? eventDate) && (eventDate <=? end_).

Definition repoMatch (cfg : Config) (event : GitHubEvent) : bool :=
  (length (targetRepos cfg) =? 0)%nat
  || bool_decide (repo_name event ∈ targetRepos cfg).

Definition userMatch (cfg : Config) (event : GitHubEvent) : bool :=
  (length (targetUsers cfg) =? 0)%nat
  || match payload_commits event with
     | Some cs =>
         existsb (λ c, bool_decide (author_name c ∈ targetUsers cfg)) cs
     | None => false
     end
  || match actor event with
     | Some login => bool_decide (login ∈ targetUsers cfg)
     | None => false
     end.

(** The callback of [events.filter] (lines 35-52). *)
Definition eventFilter (tz : Z) (cfg : Config) (event : GitHubEvent)
    : bool :=
  if negb (String.eqb (type event) "PushEvent") then false
  else if negb (isDateInRange tz cfg (created_at event)) then false
  else repoMatch cfg event && userMatch cfg event.

(** The record built by the [map] of lines 61-66. *)
Definition toCommit (event : GitHubEvent) (commit : PayloadCommit)
    : Commit :=
  {| hash := String.substring 0 7 (sha commit);
     message := pc_message commit;
     author := author_name commit;
     timestamp := created_at event |}.

Definition userCommitsOf (cfg : Config) (event : GitHubEvent)
    (cs : list PayloadCommit) : list Commit :=
  toCommit event <$> filter (λ c, author_name c ∈ targetUsers cfg) cs.

(** One turn of the loop over the filtered events (lines 54-77).  The
    entry found, or the one just pushed, is updated in place. *)
Definition processEvent (cfg : Config) (contributions : list Contribution)
    (event : GitHubEvent) : list Contribution :=
  let repoName := repo_name event in
  match payload_commits event with
  | None => contributions
  | Some cs =>
      let userCommits := userCommitsOf cfg event cs in
      if (length userCommits =? 0)%nat then contributions
      else
        let '(contributions, repoEntry) :=
          match list_find (λ c, repo c = repoName) contributions with
          | Some (i, _) => (contributions, i)
          | None =>
              (contributions ++ [{| repo := repoName; commits := [] |}],
               length contributions)
          end in
        alter (λ c, {| repo := repo c; commits := commits c ++ userCommits |})
              repoEntry contributions
  end.

Definition process (tz : Z) (cfg : Config) (events : list GitHubEvent)
    : list Contribution :=
  let filteredEvents := filter (λ e, eventFilter tz cfg e) events in
  foldl (processEvent cfg) [] filteredEvents.

End EODProcessor.

(** ** More JavaScript string built-ins

    A character of a string stands for one UTF-16 code unit; only the code
    units below 256 are representable. *)

Module JSString.

(** The line feed, ["\n"]. *)
Definition lf : ascii := "010"%char.

(** WhiteSpace and LineTerminator code units below 256: TAB, LF, VT, FF, CR,
    SP and NBSP. *)
Definition isWhiteSpace (c : ascii) : bool :=
  let n := nat_of_ascii c in
  ((9 <=? n) && (n <=? 13) || (n =? 32) || (n =? 160))%nat.

Fixpoint trimStart (s : string) : string :=
  match s with
  | EmptyString => EmptyString
  | String c s' => if isWhiteSpace c then trimStart s' else s
  end.

Fixpoint trimEnd (s : string) : string :=
  match s with
  | EmptyString => EmptyString
  | String c s' =>
      match trimEnd s' with
      | EmptyString => if isWhiteSpace c then EmptyString
                       else String c EmptyString
      | r => String c r
      end
  end.

(** [s.trim()]. *)
Definition trim (s : string) : string := trimEnd (trimStart s).

(** [s.startsWith(p)]. *)
Definition startsWith (p s : string) : bool := String.prefix p s.

(** The search of [lastIndexOf] downwards from index [k]. *)
Fixpoint lastIndexFrom (c : ascii) (s : string) (k : nat) : Z :=
  if bool_decide (String.get k s = Some c) then Z.of_nat k
  else match k with
       | O => -1
       | S k' => lastIndexFrom c s k'
       end.

(** [s.lastIndexOf(c, position)] for a one-character needle: the search
    starts at [position] clamped to the indices of [s]. *)
Definition lastIndexOf (c : ascii) (s : string) (position : Z) : Z :=
  let len := Z.of_nat (String.length s) in
  let start := Z.min (Z.max position 0) (len - 1) in
  if start <? 0 then -1 else lastIndexFrom c s (Z.to_nat start).

(** [s.substring(0, e)] and [s.substring(e)]: an index below 0 counts as 0,
    one beyond the length as the length. *)
Definition substringTo (s : string) (e : Z) : string :=
  String.substring 0 (Z.to_nat e) s.
Definition substringFrom (s : string) (e : Z) : string :=
  String.substring (Z.to_nat e) (String.length s) s.

(** The comparison of the default [sort()]: by code units. *)
Definition defaultCompare (a b : string) : Z :=
  match String.compare a b with
  | Lt => -1
  | Eq => 0
  | Gt => 1
  end.

End JSString.

(** ** Comma-separated lists (validateConfig in src/main.ts, lines 26-37;
    getTokenScopes in src/services/GitHubService.ts, lines 51-58) *)

Module ConfigList.

(** [raw.split(',').map((u) => u.trim()).filter(Boolean)]. *)
Definition commaList (raw : string) : list string :=
  filter (λ u, JS.truthy (Some u)) (JSString.trim <$> JS.split "," raw).

(** [process.env.TARGET_USERS || ''] and [process.env.TARGET_REPOS || ''],
    then the list. *)
Definition envList (value : option string) : list string :=
  commaList (if JS.truthy value then default "" value else "").

(** [res.headers['x-oauth-scopes'] ?? ''], then the list. *)
Definition scopesOf (header : option string) : list string :=
  commaList (default "" header).

End ConfigList.

(** ** main (src/main.ts) *)

Module Main.

(** The fields of [AppConfig] the pipeline reads; the others select the
    rendering of the report. *)
Record AppConfig := mkAppConfig {
  token : string;
  targetUsers : list string;
  targetRepos : list string;
  organization : option string;
  date : Z;
  checkPreviousDay : bool;
  maxBranches : Z;
}.

Definition isValidFullRepo (r : string) : bool :=
  JS.includes "/" r && (length (JS.split "/" r) =? 2)%nat.

(** [repos.add(r)] on a [Set], iterated in insertion order. *)
Definition Set_add (r : string) (repos : list string) : list string :=
  if decide (r ∈ repos) then repos else repos ++ [r].

(** The PushEvent synthesized for a repository (lines 143-160). *)
Definition synthesize (sinceISO : Z) (repo : string)
    (commits : list ApiCommit) : GitHubEvent :=
  {| created_at := sinceISO;
     type := "PushEvent";
     repo_name := repo;
     payload_commits :=
       Some ((λ c, {| sha := api_sha c;
                      pc_message := commit_message c;
                      author_name := commit_author_name c;
                      author_email := commit_author_email c |})
             <$> commits);
     actor := head commits ≫= api_author |}.

(** The set of repositories to scan (lines 102-121). *)
Definition resolveRepos (w : World) (targetRepos : list string)
    (org : option string) : Eff.M (list string) :=
  let repos := [] in
  repos ← (if JS.truthy org then
             orgRepos ← GitHubService.getOrgRepos w (default "" org);
             mret (foldl (λ s r, Set_add r s) repos orgRepos)
           else mret repos);
  userRepos ← GitHubService.getUserRepos w;
  let repos := foldl (λ s r, Set_add r s) repos userRepos in
  mret (foldl (λ s r, if negb (isValidFullRepo r) then s else Set_add r s)
              repos
              (filter (λ r, JS.truthy (Some r)) targetRepos)).

(** The loop over the repositories (lines 128-167). *)
Definition fetchRepoEvents (w : World) (repos : list string)
    (sinceISO untilISO maxBranches : Z) (events : list GitHubEvent)
    : Eff.M (list GitHubEvent) :=
  Eff.for_of repos
    (λ events repo,
       Eff.try_catch
         (commits ← GitHubService.getCommitsForRepo w repo sinceISO untilISO
                      maxBranches;
          if (0 <? length commits)%nat
          then mret (events ++ [synthesize sinceISO repo commits])
          else mret events)
         (λ _, mret events))
    events.

(** The loop over the target users (lines 169-176). *)
Definition fetchUserEvents (w : World) (targetUsers : list string)
    (events : list GitHubEvent) : Eff.M (list GitHubEvent) :=
  Eff.for_of targetUsers
    (λ events user,
       Eff.try_catch
         (userEvents ← GitHubService.getUserPublicEvents w user;
          mret (events ++ userEvents))
         (λ _, mret events))
    events.

Definition fetchEvents (w : World) (targetUsers targetRepos : list string)
    (org : option string) (date : Z) (maxBranches : Z)
    : Eff.M (list GitHubEvent) :=
  let events := [] in
  let since := DateJS.setHours (tz w) date 0 0 0 0 in
  let until := DateJS.addDays since 1 in
  repos ← resolveRepos w targetRepos org;
  events ← fetchRepoEvents w repos since until maxBranches events;
  fetchUserEvents w targetUsers events.

Definition shortNamesError : Exn :=
  Error "You used short repo names, but GITHUB_ORG is not set. Please set it in .env or use full repo names.".

(** Short repository names (lines 184-196): the list EODProcessor and
    [fetchEvents] are given, or the error thrown. *)
Definition resolveShortNames (config : AppConfig) : Eff.M (list string) :=
  if existsb (λ r, negb (JS.includes "/" r)) (targetRepos config) then
    let prefix := organization config in
    if negb (JS.truthy prefix) then
      Eff.throw shortNamesError
    else
      mret ((λ r, if JS.includes "/" r then r
                  else default "" prefix +:+ "/" +:+ r)
            <$> targetRepos config)
  else mret (targetRepos config).

Definition processorFor (config : AppConfig) (targetRepos : list string)
    (date : Z) : EODProcessor.Config :=
  {| EODProcessor.targetRepos := targetRepos;
     EODProcessor.targetUsers := targetUsers config;
     EODProcessor.date := date |}.

(** What [validateConfig] reads of the environment of the process (lines
    23-48 and 60-68).  [targetDate] is the instant lines 60-68 settle on
    (from [--date], [TARGET_DATE] or the clock) and [MAX_BRANCHES] the number
    [parseInt] reads when the variable is set and not empty: the parsing of
    dates, of numbers and of the command line is the runtime's. *)
Record Env := mkEnv {
  GITHUB_TOKEN : option string;
  TARGET_USERS : option string;
  TARGET_REPOS : option string;
  GITHUB_ORG : option string;
  CHECK_PREVIOUS_DAY : option string;
  MAX_BRANCHES : option Z;
  targetDate : Z;
}.

Definition tokenError : Exn := Error "GITHUB_TOKEN is required".

(** [validateConfig] (lines 11-83), for the fields of [AppConfig] above. *)
Definition validateConfig (env : Env) : Eff.M AppConfig :=
  let token := GITHUB_TOKEN env in
  if negb (JS.truthy token) then Eff.throw tokenError
  else
    let targetUsers := ConfigList.envList (TARGET_USERS env) in
    let rawRepos := ConfigList.envList (TARGET_REPOS env) in
    let organization :=
      if JS.truthy (GITHUB_ORG env) then GITHUB_ORG env else None in
    let checkPreviousDay :=
      bool_decide (CHECK_PREVIOUS_DAY env = Some "true") in
    let maxBranches := default 10 (MAX_BRANCHES env) in
    mret {| token := default "" token;
            targetUsers := targetUsers;
            targetRepos := rawRepos;
            organization := organization;
            date := targetDate env;
            checkPreviousDay := checkPreviousDay;
            maxBranches := maxBranches |}.

(** What the call of line 269 throws: the Reporter that line 6 imports,
    src/services/Reporter.ts, has the methods [print] and [writeToFile] and
    no [generateMinimalEODReport]. *)
Definition summaryError : Exn :=
  TypeError "reporter.generateMinimalEODReport is not a function".

(** [main] (lines 181-271).  [validated] is the call [validateConfig()] of
    line 182: the configuration it returns or the error it throws.  [w] is
    the world during the fetch for the target date and [wPrev] the world
    during the fetch for the previous day, when there is one (the remote may
    answer differently by then).  After [print] and [writeToFile] the call
    of [generateMinimalEODReport] throws, so line 270 is never reached. *)
Definition main (w wPrev : World) (validated : Eff.M AppConfig)
    : Eff.M unit :=
  config ← validated;
  targetRepos ← resolveShortNames config;
  events ← fetchEvents w (targetUsers config) targetRepos
             (organization config) (date config) (maxBranches config);
  let contributions :=
    EODProcessor.process (tz w) (processorFor config targetRepos (date config))
      events in
  fallback ←
    (if (length contributions =? 0)%nat && checkPreviousDay config then
       let prevDate := DateJS.addDays (date config) (-1) in
       prevEvents ← fetchEvents wPrev (targetUsers config) targetRepos
                      (organization config) prevDate (maxBranches config);
       let altContribs :=
         EODProcessor.process (tz wPrev)
           (processorFor config targetRepos prevDate) prevEvents in
       if (0 <? length altContribs)%nat then
         Eff.perform (Print altContribs prevDate);;
         Eff.perform (WriteToFile altContribs prevDate);;
         mret true
       else mret false
     else mret false);
  if (fallback : bool) then mret tt
  else if (length contributions =? 0)%nat then mret tt
  else
    Eff.perform (Print contributions (date config));;
    Eff.perform (WriteToFile contributions (date config));;
    Eff.throw summaryError.

(** [main().catch(... process.exit(1))]: the effects of the run and the
    exit code of the process. *)
Definition run (w wPrev : World) (validated : Eff.M AppConfig)
    : list Effect * Z :=
  match main w wPrev validated with
  | (t, inl _) => (t, 1)
  | (t, inr _) => (t, 0)
  end.

(** The contribution lists the Reporter is called with, in order. *)
Definition handedToReporter (t : list Effect) : list (list Contribution) :=
  omap (λ e, match e with
             | Print cs _ | WriteToFile cs _ => Some cs
             | _ => None
             end) t.

End Main.

(** ** EODProcessor, the copy that sorts (src/src/services/EODProcessor.ts,
    found after src/src/services/WhatsAppService.ts)

    [localeCompare] is the comparison of repository names of the runtime's
    locale. *)

Module EODProcessorSorted.

Definition userCommitsOf (cfg : EODProcessor.Config) (event : GitHubEvent)
    (cs : list PayloadCommit) : list Commit :=
  EODProcessor.toCommit event
  <$> filter (λ c, length (EODProcessor.targetUsers cfg) = 0%nat
                   ∨ author_name c ∈ EODProcessor.targetUsers cfg) cs.

Definition processEvent (cfg : EODProcessor.Config)
    (contributions : list Contribution) (event : GitHubEvent)
    : list Contribution :=
  let repoName := repo_name event in
  match payload_commits event with
  | None => contributions
  | Some cs =>
      let userCommits := userCommitsOf cfg event cs in
      if (length userCommits =? 0)%nat then contributions
      else
        let '(contributions, repoEntry) :=
          match list_find (λ c, repo c = repoName) contributions with
          | Some (i, _) => (contributions, i)
          | None =>
              (contributions ++ [{| repo := repoName; commits := [] |}],
               length contributions)
          end in
        alter (λ c, {| repo := repo c; commits := commits c ++ userCommits |})
              repoEntry contributions
  end.

Definition process (localeCompare : string → string → Z) (tz : Z)
    (cfg : EODProcessor.Config) (events : list GitHubEvent)
    : list Contribution :=
  let filteredEvents :=
    filter (λ e, EODProcessor.eventFilter tz cfg e) events in
  let contributions := foldl (processEvent cfg) [] filteredEvents in
  JS.sort (λ a b, localeCompare (repo a) (repo b)) contributions.

End EODProcessorSorted.

(** ** File utilities (src/src/utils/file.ts) *)

Module FileUtil.

(** [getLatestFile]: [listing] is what the file system answers for
    [dirPath] ([None] when the directory does not exist, an error when
    [readdirSync] throws); [path_join] is [path.join]. *)
Definition getLatestFile (path_join : string → string → string)
    (listing : option (Exn + list string)) (dirPath pattern : string)
    : option string :=
  match listing with
  | None => None
  | Some (inl _) => None
  | Some (inr entries) =>
      let files :=
        reverse (JS.sort JSString.defaultCompare
                   (filter (λ file, JSString.startsWith pattern file) entries)) in
      if (length files =? 0)%nat then None
      else path_join dirPath <$> head files
  end.

End FileUtil.

(** ** WhatsAppService (src/src/services/WhatsAppService.ts) *)

Module WhatsAppService.

Definition MAX_MESSAGE_LENGTH : Z := 1500.

(** [`*EOD Summary - ${dateStr}*\n\n`]; [dateStr] is the date as
    [toLocaleDateString] renders it. *)
Definition header (dateStr : string) : string :=
  "*EOD Summary - " +:+ dateStr +:+ "*"
  +:+ String JSString.lf (String JSString.lf EmptyString).

Definition MAX_CONTENT_LENGTH (dateStr : string) : Z :=
  MAX_MESSAGE_LENGTH - Z.of_nat (String.length (header dateStr)).

(** [`${Math.ceil(len / max)}`]: the division is the one of numbers. *)
Definition totalPartsText (len max : Z) : string :=
  if max =? 0 then (if len =? 0 then "NaN" else "Infinity")
  else if 0 <? max then pretty ((len + max - 1) / max)
  else let q := len / (- max) in
       if q =? 0 then "0" else "-" +:+ pretty q.

(** [`*EOD Summary - ${dateStr} (Part ${partNumber}/${totalParts})*\n\n`]. *)
Definition messageHeader (dateStr : string) (partNumber : Z)
    (totalParts : string) : string :=
  "*EOD Summary - " +:+ dateStr +:+ " (Part " +:+ pretty partNumber +:+ "/"
  +:+ totalParts +:+ ")*"
  +:+ String JSString.lf (String JSString.lf EmptyString).

(** The end of the next part (lines 74-81). *)
Definition nextEnd (max : Z) (remainingContent : string) : Z :=
  let len := Z.of_nat (String.length remainingContent) in
  let endIndex := Z.min max len in
  if endIndex <? len then
    let lastLineBreak := JSString.lastIndexOf JSString.lf remainingContent max in
    if 2 * lastLineBreak >? max then lastLineBreak + 1 else endIndex
  else endIndex.

(** The [while] loop (lines 72-91); [None] when [fuel] turns of the loop do
    not empty [remainingContent]. *)
Fixpoint splitLoop (fuel : nat) (dateStr : string) (max : Z)
    (totalParts : string) (remainingContent : string) (partNumber : Z)
    (messages : list string) : option (list string) :=
  if (0 <? String.length remainingContent)%nat then
    match fuel with
    | O => None
    | S fuel' =>
        let endIndex := nextEnd max remainingContent in
        let part := JSString.substringTo remainingContent endIndex in
        let remainingContent :=
          JSString.substringFrom remainingContent endIndex in
        splitLoop fuel' dateStr max totalParts remainingContent
          (partNumber + 1)
          (messages ++ [messageHeader dateStr partNumber totalParts +:+ part])
    end
  else Some messages.

Definition formatContent (fuel : nat) (dateStr content : string)
    : option (list string) :=
  let max := MAX_CONTENT_LENGTH dateStr in
  if Z.of_nat (String.length content) <=? max
  then Some [header dateStr +:+ content]
  else
    splitLoop fuel dateStr max
      (totalPartsText (Z.of_nat (String.length content)) max) content 1 [].

End WhatsAppService.

(** ** Reference notions the properties are stated with *)

(** First-seen-wins deduplication by a key: the first element with each key
    is kept, in the order of the list. *)
Fixpoint firstSeenBy {A K} `{EqDecision K} (key : A → K) (l : list A)
    : list A :=
  match l with
  | [] => []
  | x :: l' => x :: filter (λ y, key y ≠ key x) (firstSeenBy key l')
  end.

(** The data of the answered requests, in order. *)
Definition answered {A} (responses : list (Exn + list A)) : list A :=
  mjoin (omap (λ r, match r with inr d => Some d | inl _ => None end)
              responses).

(** The merge of the responses of the sampled branches, a rejected
    request being skipped: what the loop of [getCommitsForRepo] computes
    from the answers alone. *)
Definition mergeResponses (responses : list (Exn + list ApiCommit))
    : list ApiCommit :=
  (foldl (λ st res,
            match res with
            | inr data => GitHubService.addUnique st data
            | inl _ => st
            end)
         ([], ∅) responses).1.

(** Branch sampling as the specification words it: when over the cap,
    [main] is looked for first, then [master]; the remaining slots go to
    the other branches in listing order. *)
Definition sampleBranches_spec (branches : list string) (cap : Z)
    : list string :=
  if Z.of_nat (length branches) <=? cap then branches
  else
    let kept :=
      if decide ("main" ∈ branches) then ["main"]
      else if decide ("master" ∈ branches) then ["master"]
      else [] in
    kept ++ take (Z.to_nat (cap - Z.of_nat (length kept)))
                 (filter (λ b, b ≠ "main" ∧ b ≠ "master") branches).

(** Case-sensitive lexicographic order on repository names. *)
Definition repoLe (a b : string) : Prop := String.leb a b = true.

(** An event that survives the filter and yields at least one commit. *)
Definition contributes (tz : Z) (cfg : EODProcessor.Config)
    (event : GitHubEvent) : Prop :=
  EODProcessor.eventFilter tz cfg event = true ∧
  ∃ cs, payload_commits event = Some cs ∧
        EODProcessor.userCommitsOf cfg event cs ≠ [].

#[global] Instance contributes_dec tz cfg event :
  Decision (contributes tz cfg event).
Proof.
  unfold contributes.
  destruct (payload_commits event) as [cs|].
  - destruct (decide (EODProcessor.eventFilter tz cfg event = true
                      ∧ EODProcessor.userCommitsOf cfg event cs ≠ []))
      as [H|H].
    + left. destruct H. eauto.
    + right. intros [? (cs' & [= <-] & ?)]. tauto.
  - right. intros [? (cs' & [=] & ?)].
Defined.

(** What one turn of the loop does with the commits [userCommits] of a
    repository: they are appended to the first entry of that repository, or
    a new entry is added at the end. *)
Fixpoint upsert (repoName : string) (userCommits : list Commit)
    (contributions : list Contribution) : list Contribution :=
  match contributions with
  | [] => [{| repo := repoName; commits := userCommits |}]
  | c :: cs =>
      if decide (repo c = repoName)
      then {| repo := repo c; commits := commits c ++ userCommits |} :: cs
      else c :: upsert repoName userCommits cs
  end.

(** A computation whose only effects are network calls. *)
Definition netOnly {A} (m : Eff.M A) : Prop :=
  Forall (λ e, ∃ r, e = Net r) (Eff.trace m).

(** The number of occurrences of a character in a string. *)
Fixpoint occurrences (c : ascii) (s : string) : nat :=
  match s with
  | EmptyString => 0%nat
  | String c' s' => ((if Ascii.eqb c' c then 1 else 0) + occurrences c s')%nat
  end.

(** What the listing of the organization contributes to the repositories to
    scan: nothing is asked without an organization. *)
Definition orgListing (w : World) (org : option string)
    : Exn + list string :=
  if JS.truthy org then orgRepos w (default "" org) else inr [].

(** A property of every effect of a computation. *)
Definition traceAll {A} (P : Effect → Prop) (m : Eff.M A) : Prop :=
  Forall P (Eff.trace m).

(** ** Concrete runs *)

Module Sample.

(** 2023-11-14T00:00:00.000Z. *)
Definition dayStart : Z := 1699920000000.

(** One commit reported twice for a repository: by the synthesized event
    (stamped with the start of the day) and by the author's own push event
    at 15:00; a second commit pushed at 10:00. *)
Definition loginFix_synth : Commit :=
  mkCommit "a1b2c3d" "fix: login" "alice" dayStart.
Definition loginFix_push : Commit :=
  mkCommit "a1b2c3d" "fix: login" "alice" (dayStart + 54000000).
Definition search_push : Commit :=
  mkCommit "e4f5a6b" "feat: search" "alice" (dayStart + 36000000).
Definition reported : list Commit :=
  [loginFix_synth; loginFix_push; search_push].

Definition apiCommit (sha author : string) : ApiCommit :=
  mkApiCommit sha ("update " +:+ sha) author None (Some author).

(** A remote with one repository of the organization and one of the
    account, each with branches [main] and [dev] that share their
    commits. *)
Definition world : World :=
  {| tz := 0;
     orgRepos := λ _, inr ["zeta-org/app"];
     userRepos := inr ["alpha/lib"];
     branchesOf := λ _ _, inr ["main"; "dev"];
     commitsOf := λ owner repo since until branch,
       if String.eqb repo "app"
       then inr [apiCommit "1111111aaaa" "alice"; apiCommit "2222222bbbb" "bob"]
       else inr [apiCommit "3333333cccc" "alice"];
     userPublicEvents := λ _, inr [] |}.

Definition config : Main.AppConfig :=
  {| Main.token := "ghp_token";
     Main.targetUsers := ["alice"];
     Main.targetRepos := [];
     Main.organization := Some "zeta-org";
     Main.date := dayStart + 50000000;
     Main.checkPreviousDay := false;
     Main.maxBranches := 10 |}.

(** What [process] makes of the events fetched in that run. *)
Definition contributions : list Contribution :=
  [ {| repo := "zeta-org/app";
       commits := [mkCommit "1111111" "update 1111111aaaa" "alice" dayStart] |};
    {| repo := "alpha/lib";
       commits := [mkCommit "3333333" "update 3333333cccc" "alice" dayStart] |} ].

(** A remote where the commit a1b2c3d is listed for the repository and also
    carried by a push event of alice at 15:00, and the commit e4f5a6b is
    carried by a push event at 10:00 only. *)
Definition pushWorld : World :=
  {| tz := 0;
     orgRepos := λ _, inl (HttpError 404);
     userRepos := inr ["zeta-org/app"];
     branchesOf := λ _ _, inr ["main"];
     commitsOf := λ owner repo since until branch,
       inr [mkApiCommit "a1b2c3d4e5f60718" "fix: login" "alice" None
              (Some "alice")];
     userPublicEvents := λ _,
       inr [ {| created_at := dayStart + 54000000;
                type := "PushEvent";
                repo_name := "zeta-org/app";
                payload_commits :=
                  Some [mkPayloadCommit "a1b2c3d4e5f60718" "fix: login" "alice"
                          None];
                actor := Some "alice" |};
             {| created_at := dayStart + 36000000;
                type := "PushEvent";
                repo_name := "zeta-org/app";
                payload_commits :=
                  Some [mkPayloadCommit "e4f5a6b7c8d90a1b" "feat: search"
                          "alice" None];
                actor := Some "alice" |} ] |}.

Definition pushConfig : Main.AppConfig :=
  {| Main.token := "ghp_token";
     Main.targetUsers := ["alice"];
     Main.targetRepos := [];
     Main.organization := None;
     Main.date := dayStart + 50000000;
     Main.checkPreviousDay := false;
     Main.maxBranches := 10 |}.

(** [TARGET_REPOS=myrepo], no [GITHUB_ORG]. *)
Definition shortNameConfig : Main.AppConfig :=
  {| Main.token := "ghp_token";
     Main.targetUsers := [];
     Main.targetRepos := ["myrepo"];
     Main.organization := None;
     Main.date := dayStart + 50000000;
     Main.checkPreviousDay := false;
     Main.maxBranches := 10 |}.

(** No target user: every author is wanted. *)
Definition everyone : EODProcessor.Config :=
  {| EODProcessor.targetRepos := [];
     EODProcessor.targetUsers := [];
     EODProcessor.date := dayStart + 50000000 |}.

Definition onlyAlice : EODProcessor.Config :=
  {| EODProcessor.targetRepos := [];
     EODProcessor.targetUsers := ["alice"];
     EODProcessor.date := dayStart + 50000000 |}.

Definition pushAt (t : Z) (authors : list string) : GitHubEvent :=
  {| created_at := t;
     type := "PushEvent";
     repo_name := "zeta-org/app";
     payload_commits :=
       Some ((λ a, mkPayloadCommit "1111111aaaa" "update" a None)
             <$> authors);
     actor := Some "alice" |}.

(** The environment of a run for carol, who has no commit. *)
Definition carolEnv : Main.Env :=
  {| Main.GITHUB_TOKEN := Some "ghp_token";
     Main.TARGET_USERS := Some "carol";
     Main.TARGET_REPOS := None;
     Main.GITHUB_ORG := Some "zeta-org";
     Main.CHECK_PREVIOUS_DAY := Some "true";
     Main.MAX_BRANCHES := None;
     Main.targetDate := dayStart + 50000000 |}.

(** [Tuesday, November 14, 2023], as [formatDate] renders a date, and a
    summary of 200 lines. *)
Definition dateStr : string := "Tuesday, November 14, 2023".
Definition longSummary : string :=
  foldr String.append ""
        (replicate 200 ("- a commit" +:+ String JSString.lf EmptyString)).

End Sample.

(** * Properties *)

(** ** The stable sort *)

Section Sort.

Import Reporter.

Lemma sort_insert_Permutation (x : Commit) l :
  JS.sort_insert compareFn x l ≡ₚ x :: l.
Proof.
  induction l as [|y l IH]; simpl; [done|].
  destruct (0 <? compareFn x y); [|done].
  rewrite IH. apply Permutation_swap.
Qed.

Lemma sort_Permutation (l : list Commit) : JS.sort compareFn l ≡ₚ l.
Proof.
  induction l as [|x l IH]; simpl; [done|].
  rewrite sort_insert_Permutation. by f_equiv.
Qed.

Lemma sort_insert_sortedDesc x l :
  sortedDesc l → sortedDesc (JS.sort_insert compareFn x l).
Proof.
  unfold sortedDesc. induction 1 as [|y l Hl IH Hy]; simpl.
  - repeat constructor.
  - destruct (0 <? compareFn x y) eqn:E; unfold compareFn in E.
    + constructor; [done|].
      rewrite sort_insert_Permutation. constructor; [lia|done].
    + constructor; [by constructor|].
      constructor; [lia|].
      eapply Forall_impl; [exact Hy|]. simpl. intros; lia.
Qed.

Lemma sort_sortedDesc (l : list Commit) : sortedDesc (JS.sort compareFn l).
Proof.
  induction l as [|x l IH]; simpl.
  - constructor.
  - by apply sort_insert_sortedDesc.
Qed.

(** A list that is already in descending order is left as it is. *)
Lemma sort_sorted_id (l : list Commit) :
  sortedDesc l → JS.sort compareFn l = l.
Proof.
  unfold sortedDesc. induction 1 as [|x l Hl IH Hx]; simpl; [done|].
  rewrite IH. destruct Hx as [|y l' Hy _]; simpl; [done|].
  unfold compareFn. destruct (0 <? timestamp y - timestamp x) eqn:E; [lia|done].
Qed.


End Sort.

(** ** Reporter.sortAndDedup *)

Lemma sortAndDedup_reported :
  Reporter.sortAndDedup Sample.reported
  = [Sample.loginFix_synth; Sample.search_push].
Proof. by vm_compute. Qed.

Lemma reported_reaches_reporter :
  Main.handedToReporter
    (Eff.trace (Main.main Sample.pushWorld Sample.pushWorld
                  (mret Sample.pushConfig)))
  = let cs := [{| repo := "zeta-org/app"; commits := Sample.reported |}] in
    [cs; cs].
Proof. by vm_compute. Qed.

(** C3 (the code departs from the claim).  A run hands the Reporter a
    Contribution whose commits are: a commit stamped with the start of the
    day (from the synthesized event), the same commit stamped 15:00 (from the
    author's push event), and another commit pushed at 10:00.  On this list
    [sortAndDedup] sorts the three commits in descending order and then
    keeps, for the duplicated hash, the LAST (oldest) record in the position
    of the first: the result starts with the start-of-day record and is not
    in descending order of timestamp. *)
Theorem sortAndDedup_keeps_oldest_duplicate :
  Main.handedToReporter
    (Eff.trace (Main.main Sample.pushWorld Sample.pushWorld
                  (mret Sample.pushConfig)))
  = (let cs := [{| repo := "zeta-org/app"; commits := Sample.reported |}] in
     [cs; cs])
  ∧ JS.sort Reporter.compareFn Sample.reported
    = [Sample.loginFix_push; Sample.search_push; Sample.loginFix_synth]
  ∧ Reporter.sortAndDedup Sample.reported
    = [Sample.loginFix_synth; Sample.search_push]
  ∧ ¬ Reporter.sortedDesc (Reporter.sortAndDedup Sample.reported).
Proof.
  split; [exact reported_reaches_reporter|].
  split; [by vm_compute|]. split; [exact sortAndDedup_reported|].
  rewrite sortAndDedup_reported. unfold Reporter.sortedDesc. intros H.
  apply StronglySorted_inv in H as [_ H].
  apply Forall_cons in H as [H _].
  simpl in H. unfold Sample.dayStart in H. lia.
Qed.

(** C6 (the code departs from the claim).  On the same list a second
    application of [sortAndDedup] changes the result of the first: the two
    surviving records swap places. *)
Theorem sortAndDedup_twice_differs :
  Reporter.sortAndDedup Sample.reported
    = [Sample.loginFix_synth; Sample.search_push]
  ∧ Reporter.sortAndDedup (Reporter.sortAndDedup Sample.reported)
    = [Sample.search_push; Sample.loginFix_synth]
  ∧ Reporter.sortAndDedup (Reporter.sortAndDedup Sample.reported)
    ≠ Reporter.sortAndDedup Sample.reported.
Proof.
  split; [exact sortAndDedup_reported|]. split; [by vm_compute|].
  vm_compute. intros [=].
Qed.

(** When no two commits share a hash, the deduplication changes nothing:
    [sortAndDedup] is the stable sort, its result is in descending order and
    a second application returns it unchanged. *)

Lemma Map_set_fresh {K V} `{EqDecision K} (k : K) (v : V) (m : list (K * V)) :
  k ∉ m.*1 → JS.Map_set k v m = m ++ [(k, v)].
Proof.
  induction m as [|[k' v'] m IH]; simpl; [done|].
  rewrite not_elem_of_cons. intros [Hne Hm].
  rewrite decide_False by done. by rewrite IH.
Qed.

Lemma Map_new_distinct {K V} `{EqDecision K} (entries : list (K * V)) :
  NoDup entries.*1 → JS.Map_new entries = entries.
Proof.
  unfold JS.Map_new.
  assert (∀ m, NoDup (m.*1 ++ entries.*1) →
               foldl (λ m e, JS.Map_set e.1 e.2 m) m entries = m ++ entries)
    as Hgen.
  { induction entries as [|[k v] es IH]; intros m Hnd; simpl.
    - by rewrite app_nil_r.
    - simpl in Hnd. apply NoDup_app in Hnd as (Hm & Hdisj & Hes).
      apply NoDup_cons in Hes as [Hk Hes].
      rewrite Map_set_fresh.
      + rewrite IH, <- app_assoc; [done|].
        rewrite fmap_app. simpl. apply NoDup_app. split; [|split; [|done]].
        * apply NoDup_app. split; [done|]. split; [|apply NoDup_singleton].
          intros x Hx Hx'%list_elem_of_singleton. subst x.
          apply (Hdisj k Hx), list_elem_of_here.
        * intros x [Hx|Hx%list_elem_of_singleton]%elem_of_app Hx'.
          -- apply (Hdisj x Hx). by apply list_elem_of_further.
          -- by subst x.
      + intros Hin. apply (Hdisj k Hin), list_elem_of_here. }
  intros Hnd. by apply (Hgen []).
Qed.

Lemma sortAndDedup_distinct_hashes (l : list Commit) :
  NoDup (hash <$> l) →
  Reporter.sortAndDedup l = JS.sort Reporter.compareFn l
  ∧ Reporter.sortedDesc (Reporter.sortAndDedup l)
  ∧ Reporter.sortAndDedup (Reporter.sortAndDedup l) = Reporter.sortAndDedup l.
Proof.
  assert (Hid : ∀ l', NoDup (hash <$> l') →
                      Reporter.sortAndDedup l' = JS.sort Reporter.compareFn l').
  { intros l' Hnd. unfold Reporter.sortAndDedup, JS.Map_values.
    rewrite Map_new_distinct.
    - rewrite <- list_fmap_compose. apply list_fmap_id.
    - rewrite <- list_fmap_compose.
      change (NoDup (hash <$> JS.sort Reporter.compareFn l')).
      by rewrite sort_Permutation. }
  intros Hnd. rewrite (Hid l Hnd).
  split; [done|]. split; [apply sort_sortedDesc|].
  rewrite Hid by (by rewrite sort_Permutation).
  apply sort_sorted_id, sort_sortedDesc.
Qed.

(** ** Branch sampling *)

Lemma list_find_head_filter {A} (P : A → Prop) `{∀ x, Decision (P x)}
    (l : list A) :
  snd <$> list_find P l = head (filter P l).
Proof.
  induction l as [|x l IH]; simpl; [done|].
  rewrite filter_cons. destruct (decide (P x)); simpl; [done|].
  destruct (list_find P l) as [[i y]|]; simpl in *; by rewrite <- IH.
Qed.

Lemma slice0_nonneg {A} (l : list A) (e : Z) :
  0 ≤ e → JS.slice0 l e = take (Z.to_nat e) l.
Proof.
  intros He. unfold JS.slice0.
  destruct (e <? 0) eqn:E; [lia|].
  destruct (decide (e ≤ Z.of_nat (length l))).
  - by rewrite Z.min_l by lia.
  - rewrite Z.min_r by lia. rewrite Nat2Z.id.
    rewrite !take_ge; [done|lia|lia].
Qed.

(** C4, counterexample.  With [master] listed before [main] and a cap of 2,
    the code keeps [master] (the first of the two in listing order), where
    the claim looks for [main] first. *)
Lemma sampleBranches_master_listed_first :
  GitHubService.sampleBranches ["master"; "main"; "dev"] 2 = ["master"; "dev"]
  ∧ sampleBranches_spec ["master"; "main"; "dev"] 2 = ["main"; "dev"]
  ∧ GitHubService.sampleBranches ["master"; "main"; "dev"] 2
    ≠ sampleBranches_spec ["master"; "main"; "dev"] 2.
Proof.
  split; [by vm_compute|]. split; [by vm_compute|].
  vm_compute. intros [=].
Qed.

(** C4, as amended.  A branch list no longer than the cap is returned
    unchanged.  A longer one, for a cap of at least 1, becomes: the first
    branch of the listing named [main] or [master], if any (one branch at
    most), followed by the branches named neither, in listing order, as far as
    the cap allows; the result is never longer than the cap.  For the cap 2
    and the listing main, feature-a, feature-b the result is main,
    feature-a. *)
Theorem sampleBranches_policy (branches : list string) (maxBranches : Z) :
  (Z.of_nat (length branches) ≤ maxBranches →
     GitHubService.sampleBranches branches maxBranches = branches)
  ∧ (maxBranches < Z.of_nat (length branches) → 1 ≤ maxBranches →
     let kept :=
       option_list (head (filter (λ b, b = "main" ∨ b = "master") branches)) in
     let others := filter (λ b, b ≠ "main" ∧ b ≠ "master") branches in
     GitHubService.sampleBranches branches maxBranches
       = kept ++ take (Z.to_nat (maxBranches - Z.of_nat (length kept))) others
     ∧ (length kept ≤ 1)%nat
     ∧ Z.of_nat (length (GitHubService.sampleBranches branches maxBranches))
       ≤ maxBranches)
  ∧ GitHubService.sampleBranches ["main"; "feature-a"; "feature-b"] 2
    = ["main"; "feature-a"].
Proof.
  split; [|split]; [| |by vm_compute].
  - intros Hle. unfold GitHubService.sampleBranches.
    destruct (Z.of_nat (length branches) >? maxBranches) eqn:E; [lia|done].
  - intros Hlt Hcap kept others.
    assert (Hkept : (length kept ≤ 1)%nat).
    { unfold kept. destruct (head _); simpl; lia. }
    assert (Heq : GitHubService.sampleBranches branches maxBranches
                  = kept ++ take (Z.to_nat (maxBranches - Z.of_nat (length kept)))
                                 others).
    { unfold GitHubService.sampleBranches.
      destruct (Z.of_nat (length branches) >? maxBranches) eqn:E; [|lia].
      rewrite list_find_head_filter. fold others.
      replace (match head (filter (λ b, b = "main" ∨ b = "master") branches) with
               | Some b => [b] | None => [] end) with kept
        by (unfold kept; by destruct (head _)).
      rewrite slice0_nonneg by lia. done. }
    split; [done|]. split; [done|].
    rewrite Heq, length_app, length_take. lia.
Qed.

(** The policy on the listing master, main, dev with the cap 2. *)
Lemma sampleBranches_policy_witness :
  GitHubService.sampleBranches ["master"; "main"; "dev"] 2
  = ["master"] ++ take 1 ["dev"].
Proof.
  destruct (sampleBranches_policy ["master"; "main"; "dev"] 2) as (_ & H & _).
  destruct H as (H & _ & _); [simpl; lia | lia |].
  exact H.
Defined.

(** ** The date filter *)

Lemma setHours_start_end (tz d : Z) :
  DateJS.endOfDay tz d = DateJS.startOfDay tz d + DateJS.msPerDay - 1
  ∧ DateJS.startOfDay tz d ≤ d ≤ DateJS.endOfDay tz d.
Proof.
  unfold DateJS.endOfDay, DateJS.startOfDay, DateJS.setHours, DateJS.msPerDay.
  pose proof (Z.mod_pos_bound (d + tz) 86400000 ltac:(lia)). lia.
Qed.

Lemma isDateInRange_spec (tz : Z) (cfg : EODProcessor.Config) (t : Z) :
  EODProcessor.isDateInRange tz cfg t = true
  ↔ DateJS.startOfDay tz (EODProcessor.date cfg) ≤ t
    ≤ DateJS.endOfDay tz (EODProcessor.date cfg).
Proof.
  unfold EODProcessor.isDateInRange, DateJS.startOfDay, DateJS.endOfDay.
  rewrite andb_true_iff, !Z.leb_le. done.
Qed.

Lemma eventFilter_spec (tz : Z) (cfg : EODProcessor.Config)
    (event : GitHubEvent) :
  EODProcessor.eventFilter tz cfg event = true
  ↔ type event = "PushEvent"
    ∧ EODProcessor.isDateInRange tz cfg (created_at event) = true
    ∧ EODProcessor.repoMatch cfg event = true
    ∧ EODProcessor.userMatch cfg event = true.
Proof.
  unfold EODProcessor.eventFilter.
  destruct (String.eqb_spec (type event) "PushEvent") as [Ht|Ht]; simpl.
  - destruct (EODProcessor.isDateInRange tz cfg (created_at event)); simpl.
    + rewrite andb_true_iff. tauto.
    + split; [done|]. intros (_ & ? & _). done.
  - split; [done|]. tauto.
Qed.

(** C5.  The date filter keeps exactly the instants from the first to the
    last millisecond of the local calendar day of the target date, both
    included: the instants [startOfDay] and [endOfDay] pass, the millisecond
    before the first and the millisecond after the second do not, and an
    event is kept by the filter exactly when it is a push event, its
    timestamp is in that closed interval, and the repository and user tests
    pass. *)
Theorem isDateInRange_inclusive (tz : Z) (cfg : EODProcessor.Config) :
  let s := DateJS.startOfDay tz (EODProcessor.date cfg) in
  let e := DateJS.endOfDay tz (EODProcessor.date cfg) in
  e = s + DateJS.msPerDay - 1
  ∧ EODProcessor.isDateInRange tz cfg s = true
  ∧ EODProcessor.isDateInRange tz cfg e = true
  ∧ EODProcessor.isDateInRange tz cfg (s - 1) = false
  ∧ EODProcessor.isDateInRange tz cfg (e + 1) = false
  ∧ (∀ t, EODProcessor.isDateInRange tz cfg t = true ↔ s ≤ t ≤ e)
  ∧ (∀ event,
       EODProcessor.eventFilter tz cfg event = true
       ↔ type event = "PushEvent" ∧ s ≤ created_at event ≤ e
         ∧ EODProcessor.repoMatch cfg event = true
         ∧ EODProcessor.userMatch cfg event = true).
Proof.
  intros s e.
  destruct (setHours_start_end tz (EODProcessor.date cfg)) as [He Hd].
  fold s e in He, Hd. unfold DateJS.msPerDay in *.
  assert (Hspec : ∀ t, EODProcessor.isDateInRange tz cfg t = true ↔ s ≤ t ≤ e)
    by (intros t; apply isDateInRange_spec).
  split; [done|].
  split; [apply Hspec; lia|].
  split; [apply Hspec; lia|].
  split; [apply not_true_is_false; rewrite Hspec; lia|].
  split; [apply not_true_is_false; rewrite Hspec; lia|].
  split; [done|].
  intros event. rewrite eventFilter_spec, Hspec. done.
Qed.

(** ** First-seen-wins deduplication *)

Section FirstSeen.

Context {A K : Type} `{EqDecision K} (key : A → K).

Lemma firstSeenBy_sublist (l : list A) : firstSeenBy key l `sublist_of` l.
Proof.
  induction l as [|x l IH]; simpl; [done|].
  apply sublist_skip. etrans; [apply sublist_filter|done].
Qed.

Lemma firstSeenBy_keys (l : list A) (k : K) :
  k ∈ key <$> firstSeenBy key l ↔ k ∈ key <$> l.
Proof.
  induction l as [|x l IH]; simpl; [done|].
  rewrite !elem_of_cons, <- IH, !list_elem_of_fmap.
  setoid_rewrite list_elem_of_filter.
  destruct (decide (k = key x)) as [->|Hk]; [tauto|].
  split; (intros [?|(y & -> & ?)]; [tauto|right; exists y]); tauto.
Qed.

Lemma firstSeenBy_NoDup (l : list A) : NoDup (key <$> firstSeenBy key l).
Proof.
  induction l as [|x l IH]; simpl; [constructor|].
  constructor.
  - rewrite list_elem_of_fmap. intros (y & Hy & Hin).
    apply list_elem_of_filter in Hin as [Hne _]. congruence.
  - eapply sublist_NoDup; [exact IH|].
    apply fmap_sublist, sublist_filter.
Qed.

(** The record kept for a key is the first one of the list with it. *)
Lemma firstSeenBy_first (l : list A) (c : A) :
  c ∈ firstSeenBy key l → head (filter (λ y, key y = key c) l) = Some c.
Proof.
  induction l as [|x l IH]; simpl; [by intros ?%elem_of_nil|].
  rewrite elem_of_cons, list_elem_of_filter, filter_cons.
  intros [->|[Hne Hin]].
  - by rewrite decide_True.
  - rewrite decide_False by congruence. by apply IH.
Qed.

Lemma filter_key_absent (l : list A) (k : K) :
  k ∉ key <$> l → filter (λ y, key y = k) l = [].
Proof.
  induction l as [|x l IH]; simpl; [done|].
  rewrite not_elem_of_cons, filter_cons. intros [Hne Hl].
  rewrite decide_False by congruence. by apply IH.
Qed.

Lemma NoDup_key_once (l : list A) (k : K) :
  NoDup (key <$> l) → k ∈ key <$> l →
  length (filter (λ y, key y = k) l) = 1%nat.
Proof.
  induction l as [|x l IH]; simpl; [by intros _ ?%elem_of_nil|].
  rewrite NoDup_cons, elem_of_cons, filter_cons.
  intros [Hx Hl] Hk. destruct (decide (key x = k)) as [<-|Hne].
  - simpl. by rewrite filter_key_absent.
  - apply IH; [done|]. by destruct Hk as [->|?].
Qed.

End FirstSeen.

Lemma filter_all {A} (P : A → Prop) `{∀ x, Decision (P x)} (l : list A) :
  (∀ x, P x) → filter P l = l.
Proof.
  intros HP. induction l as [|x l IH]; [done|].
  rewrite filter_cons, decide_True by done. by rewrite IH.
Qed.

(** ** The commit merge of getCommitsForRepo *)

Lemma addUnique_firstSeen (data all : list ApiCommit) (processed : gset string) :
  (∀ s, s ∈ processed ↔ s ∈ api_sha <$> all) →
  (GitHubService.addUnique (all, processed) data).1
  = all ++ filter (λ c, api_sha c ∉ api_sha <$> all)
                  (firstSeenBy api_sha data).
Proof.
  unfold GitHubService.addUnique.
  revert all processed. induction data as [|x data IH]; intros all processed Hinv.
  - simpl. by rewrite filter_nil, app_nil_r.
  - simpl. destruct (decide (api_sha x ∈ processed)) as [Hin|Hnin].
    + rewrite IH by done. f_equal.
      rewrite filter_cons, decide_False by (rewrite <- Hinv; tauto).
      symmetry. apply list_filter_filter_l. intros c Hc Heq.
      apply Hc. rewrite Heq. apply Hinv, Hin.
    + rewrite IH.
      * rewrite filter_cons, decide_True by (by rewrite <- Hinv).
        rewrite <- app_assoc. simpl. do 2 f_equal.
        rewrite list_filter_filter. apply list_filter_iff. intros c.
        rewrite fmap_app, not_elem_of_app. simpl.
        rewrite list_elem_of_singleton. done.
      * intros s. rewrite fmap_app, elem_of_app, elem_of_union, Hinv. simpl.
        rewrite elem_of_singleton, list_elem_of_singleton. tauto.
Qed.

Lemma mergeResponses_answered (responses : list (Exn + list ApiCommit)) :
  mergeResponses responses
  = firstSeenBy api_sha (answered responses).
Proof.
  unfold mergeResponses.
  assert (∀ st,
    foldl (λ st res, match res with
                     | inr data => GitHubService.addUnique st data
                     | inl _ => st
                     end) st responses
    = GitHubService.addUnique st (answered responses)) as ->.
  { induction responses as [|[e|d] rs IH]; intros st; simpl; [done| |].
    - apply IH.
    - rewrite IH. unfold answered. simpl.
      unfold GitHubService.addUnique. by rewrite foldl_app. }
  rewrite addUnique_firstSeen by (intros s; set_solver).
  simpl. apply filter_all. intros c. apply not_elem_of_nil.
Qed.

Lemma for_of_branches (w : World) (owner repo : string) (since until : Z)
    (branches : list string) (st : list ApiCommit * gset string) :
  Eff.for_of branches
    (λ st branch,
       Eff.try_catch
         (data ← Eff.await (GetCommits owner repo since until branch)
                   (commitsOf w owner repo since until branch);
          Eff.ret (GitHubService.addUnique st data))
         (λ _, Eff.ret st))
    st
  = ((λ b, Net (GetCommits owner repo since until b)) <$> branches,
     inr (foldl (λ st res, match res with
                           | inr data => GitHubService.addUnique st data
                           | inl _ => st
                           end)
                st (commitsOf w owner repo since until <$> branches))).
Proof.
  revert st. induction branches as [|b bs IH]; intros st; simpl; [done|].
  unfold Eff.bind at 1. unfold Eff.try_catch, Eff.await, mbind, M_bind, Eff.bind, Eff.ret.
  destruct (commitsOf w owner repo since until b) as [e|data]; simpl;
    rewrite IH; done.
Qed.

Lemma truthy_Some (s : string) : s ≠ "" → JS.truthy (Some s) = true.
Proof.
  intros Hs. simpl. by destruct (String.eqb_spec s "").
Qed.

Lemma bind_await {A B} (r : Request) (v : A) (k : A → Eff.M B) :
  Eff.await r (inr v) ≫= k = (Net r :: (k v).1, (k v).2).
Proof.
  unfold mbind, M_bind, Eff.bind, Eff.await. by destruct (k v).
Qed.

Lemma getCommitsForRepo_run (w : World) (repoFullName owner repo : string)
    (since until maxBranches : Z) (branches : list string) :
  JS.split "/" repoFullName !! 0%nat = Some owner → owner ≠ "" →
  JS.split "/" repoFullName !! 1%nat = Some repo → repo ≠ "" →
  branchesOf w owner repo = inr branches →
  GitHubService.getCommitsForRepo w repoFullName since until maxBranches
  = (Net (GetBranches owner repo)
       :: ((λ b, Net (GetCommits owner repo since until b))
           <$> GitHubService.sampleBranches branches maxBranches),
     inr (mergeResponses
            (commitsOf w owner repo since until
             <$> GitHubService.sampleBranches branches maxBranches))).
Proof.
  intros Ho Hone Hr Hrne Hb.
  unfold GitHubService.getCommitsForRepo, GitHubService.getBranchesForRepo.
  rewrite Ho, Hr, !truthy_Some by done. cbn -[mbind Eff.for_of].
  rewrite Hb, bind_await. cbn -[mbind Eff.for_of].
  rewrite for_of_branches. simpl. by rewrite app_nil_r.
Qed.

(** C2.  For a well-formed repository name whose branch listing succeeds,
    [getCommitsForRepo] returns, and what it returns is the first-seen-wins
    deduplication by full SHA of the commits the sampled branches answered (a
    branch whose request failed being skipped): the SHAs of the output are
    pairwise distinct, every commit some branch returned has exactly one
    record with its SHA in the output, that record is the first one fetched
    with this SHA, and the output keeps the order of fetching. *)
Theorem getCommitsForRepo_each_commit_once (w : World)
    (repoFullName owner repo : string) (since until maxBranches : Z)
    (branches : list string) :
  JS.split "/" repoFullName !! 0%nat = Some owner → owner ≠ "" →
  JS.split "/" repoFullName !! 1%nat = Some repo → repo ≠ "" →
  branchesOf w owner repo = inr branches →
  let sampled := GitHubService.sampleBranches branches maxBranches in
  let fetched := answered (commitsOf w owner repo since until <$> sampled) in
  ∃ out,
    Eff.outcome
      (GitHubService.getCommitsForRepo w repoFullName since until maxBranches)
      = inr out
    ∧ out = firstSeenBy api_sha fetched
    ∧ NoDup (api_sha <$> out)
    ∧ (∀ c, c ∈ fetched →
         length (filter (λ c', api_sha c' = api_sha c) out) = 1%nat)
    ∧ (∀ c, c ∈ out →
         head (filter (λ c', api_sha c' = api_sha c) fetched) = Some c)
    ∧ out `sublist_of` fetched.
Proof.
  intros Ho Hone Hr Hrne Hb sampled fetched.
  exists (firstSeenBy api_sha fetched).
  split.
  { erewrite getCommitsForRepo_run by done. simpl.
    by rewrite mergeResponses_answered. }
  split; [done|].
  split; [apply firstSeenBy_NoDup|].
  split; [|split].
  - intros c Hc. apply NoDup_key_once; [apply firstSeenBy_NoDup|].
    apply firstSeenBy_keys. by apply list_elem_of_fmap_2.
  - intros c Hc. by apply firstSeenBy_first.
  - apply firstSeenBy_sublist.
Qed.

(** The merge for zeta-org/app, whose two branches answer the same commits. *)
Lemma getCommitsForRepo_each_commit_once_witness :
  ∃ out,
    Eff.outcome
      (GitHubService.getCommitsForRepo Sample.world "zeta-org/app"
         Sample.dayStart (Sample.dayStart + 86400000) 10)
      = inr out
    ∧ NoDup (api_sha <$> out).
Proof.
  destruct (getCommitsForRepo_each_commit_once Sample.world "zeta-org/app"
              "zeta-org" "app" Sample.dayStart (Sample.dayStart + 86400000) 10
              ["main"; "dev"])
    as (out & Hout & _ & Hnd & _);
    [reflexivity | discriminate | reflexivity | discriminate | reflexivity |].
  exists out. split; [exact Hout | exact Hnd].
Defined.

(** ** EODProcessor.process *)

Lemma find_alter_upsert (repoName : string) (userCommits : list Commit)
    (contributions : list Contribution) :
  (let '(contributions', repoEntry) :=
     match list_find (λ c, repo c = repoName) contributions with
     | Some (i, _) => (contributions, i)
     | None =>
         (contributions ++ [{| repo := repoName; commits := [] |}],
          length contributions)
     end in
   alter (λ c, {| repo := repo c; commits := commits c ++ userCommits |})
         repoEntry contributions')
  = upsert repoName userCommits contributions.
Proof.
  induction contributions as [|c cs IH]; simpl; [done|].
  destruct (decide (repo c = repoName)) as [Hc|Hc]; simpl; [done|].
  destruct (list_find (λ c, repo c = repoName) cs) as [[i x]|]; simpl in *;
    by rewrite <- IH.
Qed.

Lemma processEvent_skip (cfg : EODProcessor.Config)
    (contributions : list Contribution) (event : GitHubEvent) :
  (∀ cs, payload_commits event = Some cs →
         EODProcessor.userCommitsOf cfg event cs = []) →
  EODProcessor.processEvent cfg contributions event = contributions.
Proof.
  intros H. unfold EODProcessor.processEvent.
  destruct (payload_commits event) as [cs|]; [|done].
  by rewrite (H cs eq_refl).
Qed.

Lemma processEvent_upsert (cfg : EODProcessor.Config)
    (contributions : list Contribution) (event : GitHubEvent)
    (cs : list PayloadCommit) :
  payload_commits event = Some cs →
  EODProcessor.userCommitsOf cfg event cs ≠ [] →
  EODProcessor.processEvent cfg contributions event
  = upsert (repo_name event) (EODProcessor.userCommitsOf cfg event cs)
           contributions.
Proof.
  intros Hcs Hne. unfold EODProcessor.processEvent. rewrite Hcs.
  destruct (EODProcessor.userCommitsOf cfg event cs) as [|c uc] eqn:E;
    [done|].
  simpl length. cbn [Nat.eqb]. apply find_alter_upsert.
Qed.

Lemma upsert_repos (repoName : string) (userCommits : list Commit)
    (contributions : list Contribution) :
  repo <$> upsert repoName userCommits contributions
  = Main.Set_add repoName (repo <$> contributions).
Proof.
  unfold Main.Set_add.
  induction contributions as [|c cs IH]; [done|].
  cbn [upsert]. rewrite fmap_cons.
  destruct (decide (repo c = repoName)) as [Hc|Hc]; rewrite fmap_cons.
  - rewrite decide_True by (rewrite Hc; apply list_elem_of_here). done.
  - rewrite IH. destruct (decide (repoName ∈ repo <$> cs)) as [Hin|Hin].
    + rewrite decide_True by (by apply list_elem_of_further). done.
    + rewrite decide_False; [done|].
      rewrite elem_of_cons. intros [?|?]; [congruence|done].
Qed.

Lemma upsert_elem_of (repoName : string) (userCommits : list Commit)
    (contributions : list Contribution) (c : Contribution) :
  c ∈ upsert repoName userCommits contributions →
  c ∈ contributions
  ∨ (repo c = repoName
     ∧ (commits c = userCommits
        ∨ ∃ c0, c0 ∈ contributions ∧ repo c0 = repoName
                ∧ commits c = commits c0 ++ userCommits)).
Proof.
  induction contributions as [|x cs IH]; simpl.
  - rewrite list_elem_of_singleton. intros ->. right. eauto.
  - destruct (decide (repo x = repoName)) as [Hx|Hx];
      rewrite !elem_of_cons.
    + intros [->|?]; [|tauto]. right. simpl. split; [done|].
      right. exists x. rewrite elem_of_cons. eauto.
    + intros [->|Hin]; [tauto|].
      destruct (IH Hin) as [?|(? & [?|(c0 & ? & ? & ?)])]; [tauto|tauto|].
      right. split; [done|]. right. exists c0.
      rewrite elem_of_cons. eauto.
Qed.

(** An invariant of the loop is established by proving it kept by each
    turn. *)
Lemma process_ind (tz : Z) (cfg : EODProcessor.Config)
    (events : list GitHubEvent) (P : list Contribution → Prop) :
  P [] →
  (∀ contributions event,
     event ∈ events → EODProcessor.eventFilter tz cfg event = true →
     P contributions →
     P (EODProcessor.processEvent cfg contributions event)) →
  P (EODProcessor.process tz cfg events).
Proof.
  intros Hnil Hstep. unfold EODProcessor.process.
  assert (Hsub : ∀ e, e ∈ filter (λ e, EODProcessor.eventFilter tz cfg e) events →
                      e ∈ events ∧ EODProcessor.eventFilter tz cfg e = true).
  { intros e [He ?]%list_elem_of_filter. split; [done|].
    by apply Is_true_true. }
  revert Hsub. generalize (filter (λ e, EODProcessor.eventFilter tz cfg e) events).
  intros l. generalize (@nil Contribution) Hnil.
  induction l as [|e l IH]; intros acc Hacc Hsub; simpl; [done|].
  apply IH.
  - destruct (Hsub e) as [? ?]; [apply list_elem_of_here|]. by apply Hstep.
  - intros e' He'. apply Hsub. by apply list_elem_of_further.
Qed.

Lemma filter_none {A} (P : A → Prop) `{∀ x, Decision (P x)} (l : list A) :
  (∀ x, x ∈ l → ¬ P x) → filter P l = [].
Proof.
  induction l as [|x l IH]; intros HP; [done|].
  rewrite filter_cons, decide_False by (apply HP, list_elem_of_here).
  apply IH. intros y Hy. by apply HP, list_elem_of_further.
Qed.

Lemma userCommitsOf_none (cfg : EODProcessor.Config) (event : GitHubEvent)
    (cs : list PayloadCommit) :
  Forall (λ pc, author_name pc ∉ EODProcessor.targetUsers cfg) cs →
  EODProcessor.userCommitsOf cfg event cs = [].
Proof.
  intros H. unfold EODProcessor.userCommitsOf.
  rewrite filter_none; [done|]. by apply Forall_forall.
Qed.

Lemma userCommitsOf_elem_of (cfg : EODProcessor.Config) (event : GitHubEvent)
    (cs : list PayloadCommit) (c : Commit) :
  c ∈ EODProcessor.userCommitsOf cfg event cs
  ↔ ∃ pc, c = EODProcessor.toCommit event pc ∧ pc ∈ cs
          ∧ author_name pc ∈ EODProcessor.targetUsers cfg.
Proof.
  unfold EODProcessor.userCommitsOf. rewrite list_elem_of_fmap.
  setoid_rewrite list_elem_of_filter.
  split; intros (pc & Hc & Hpc); exists pc; tauto.
Qed.

(** The turn of the loop, by cases. *)
Lemma processEvent_cases (cfg : EODProcessor.Config)
    (contributions : list Contribution) (event : GitHubEvent) :
  ((∀ cs, payload_commits event = Some cs →
          EODProcessor.userCommitsOf cfg event cs = [])
   ∧ EODProcessor.processEvent cfg contributions event = contributions)
  ∨ ∃ cs, payload_commits event = Some cs
          ∧ EODProcessor.userCommitsOf cfg event cs ≠ []
          ∧ EODProcessor.processEvent cfg contributions event
            = upsert (repo_name event)
                     (EODProcessor.userCommitsOf cfg event cs) contributions.
Proof.
  assert (payload_commits event = None
          ∨ ∃ cs, payload_commits event = Some cs) as [Hcs|[cs Hcs]]
    by (destruct (payload_commits event); eauto).
  - left. assert (∀ cs', payload_commits event = Some cs' →
                         EODProcessor.userCommitsOf cfg event cs' = [])
      by (intros cs' Hcs'; congruence).
    split; [done|]. by apply processEvent_skip.
  - destruct (decide (EODProcessor.userCommitsOf cfg event cs = [])) as [He|He].
    + left. assert (∀ cs', payload_commits event = Some cs' →
                           EODProcessor.userCommitsOf cfg event cs' = [])
        by (intros cs' Hcs'; congruence).
      split; [done|]. by apply processEvent_skip.
    + right. exists cs. split; [done|]. split; [done|].
      by apply processEvent_upsert.
Qed.

(** C1 (the code departs from the claim).  With an empty target-user list
    the per-commit author filter is still applied, and no author is in the
    empty list: [process] returns no Contribution at all, whatever the
    events. *)
Theorem process_without_target_users (tz : Z) (cfg : EODProcessor.Config)
    (events : list GitHubEvent) :
  EODProcessor.targetUsers cfg = [] →
  EODProcessor.process tz cfg events = [].
Proof.
  intros Hu. apply process_ind; [done|].
  intros contributions event _ _ ->.
  apply processEvent_skip. intros cs _. apply userCommitsOf_none.
  rewrite Hu. apply Forall_forall. intros pc _. apply not_elem_of_nil.
Qed.

(** A push event of the day that passes the filter, and is dropped all the
    same when no target user is configured. *)
Lemma process_without_target_users_witness :
  let event := Sample.pushAt (Sample.dayStart + 36000000) ["alice"] in
  EODProcessor.eventFilter 0 Sample.everyone event = true
  ∧ EODProcessor.process 0 Sample.everyone [event] = [].
Proof.
  split; [by vm_compute|].
  apply (process_without_target_users 0 Sample.everyone). reflexivity.
Defined.

(** C8.  No Contribution returned by [process] has an empty commit list; an
    event none of whose commits passes the author filter leaves the
    contributions as they are (no entry is added for its repository). *)
Theorem process_contributions_nonempty (tz : Z) (cfg : EODProcessor.Config)
    (events : list GitHubEvent) :
  Forall (λ c, commits c ≠ []) (EODProcessor.process tz cfg events)
  ∧ (∀ contributions event cs,
       payload_commits event = Some cs →
       Forall (λ pc, author_name pc ∉ EODProcessor.targetUsers cfg) cs →
       EODProcessor.processEvent cfg contributions event = contributions).
Proof.
  split.
  - apply process_ind; [constructor|].
    intros contributions event _ _ IH.
    destruct (processEvent_cases cfg contributions event)
      as [[_ ->]|(cs & Hcs & Hne & ->)]; [done|].
    apply Forall_forall. intros c Hc.
    apply upsert_elem_of in Hc as [Hc|(_ & [Hc|(c0 & _ & _ & Hc)])].
    + by apply (proj1 (Forall_forall _ _) IH).
    + by rewrite Hc.
    + rewrite Hc. intros [_ ?]%app_eq_nil. done.
  - intros contributions event cs Hcs Hall.
    apply processEvent_skip. intros cs' Hcs'.
    apply userCommitsOf_none. congruence.
Qed.

(** A push event by alice whose only commit is authored by bob adds no
    entry when alice is the target user. *)
Lemma process_contributions_nonempty_witness :
  let event := Sample.pushAt (Sample.dayStart + 36000000) ["bob"] in
  EODProcessor.eventFilter 0 Sample.onlyAlice event = true
  ∧ EODProcessor.processEvent Sample.onlyAlice [] event = [].
Proof.
  split; [by vm_compute|].
  eapply (proj2 (process_contributions_nonempty 0 Sample.onlyAlice []));
    [reflexivity|].
  apply Forall_singleton, not_elem_of_cons.
  split; [discriminate | apply not_elem_of_nil].
Defined.

(** ** Grouping by repository *)

Lemma foldl_Set_add_firstSeen (names seen : list string) :
  foldl (λ s r, Main.Set_add r s) seen names
  = seen ++ filter (λ r, r ∉ seen) (firstSeenBy id names).
Proof.
  revert seen. induction names as [|x names IH]; intros seen; simpl.
  - by rewrite filter_nil, app_nil_r.
  - rewrite IH. unfold Main.Set_add.
    destruct (decide (x ∈ seen)) as [Hin|Hnin].
    + f_equal. rewrite filter_cons, decide_False by tauto.
      symmetry. apply list_filter_filter_l. intros r Hr Heq.
      apply Hr. by rewrite Heq.
    + rewrite filter_cons, decide_True by done.
      rewrite <- app_assoc. simpl. do 2 f_equal.
      rewrite list_filter_filter. apply list_filter_iff. intros r.
      rewrite not_elem_of_app, list_elem_of_singleton. done.
Qed.

Lemma foldl_processEvent_repos (tz : Z) (cfg : EODProcessor.Config)
    (filtered : list GitHubEvent) (contributions : list Contribution) :
  Forall (λ e, EODProcessor.eventFilter tz cfg e = true) filtered →
  repo <$> foldl (EODProcessor.processEvent cfg) contributions filtered
  = foldl (λ s r, Main.Set_add r s) (repo <$> contributions)
          (repo_name <$> filter (contributes tz cfg) filtered).
Proof.
  intros Hf. revert contributions.
  induction Hf as [|e l He Hl IH]; intros contributions; [done|].
  cbn [foldl]. rewrite IH, filter_cons.
  destruct (processEvent_cases cfg contributions e)
    as [[Hno Heq]|(cs & Hcs & Hne & Heq)].
  - rewrite decide_False, Heq; [done|].
    intros (_ & cs & Hcs & Hne). by apply Hne, Hno.
  - rewrite decide_True by (split; eauto).
    rewrite fmap_cons. cbn [foldl]. by rewrite Heq, upsert_repos.
Qed.

Lemma process_repos (tz : Z) (cfg : EODProcessor.Config)
    (events : list GitHubEvent) :
  repo <$> EODProcessor.process tz cfg events
  = firstSeenBy id (repo_name <$> filter (contributes tz cfg) events).
Proof.
  unfold EODProcessor.process.
  rewrite (foldl_processEvent_repos tz).
  - rewrite foldl_Set_add_firstSeen. simpl.
    rewrite filter_all by (intros r; apply not_elem_of_nil).
    do 2 f_equal. apply list_filter_filter_l.
    intros e [He _]. by apply Is_true_true.
  - apply Forall_forall. intros e [He _]%list_elem_of_filter.
    by apply Is_true_true.
Qed.

(** ** Effects of the run *)

Lemma netOnly_ret {A} (a : A) : netOnly (mret a).
Proof. constructor. Qed.

Lemma netOnly_throw {A} (e : Exn) : netOnly (@Eff.throw A e).
Proof. constructor. Qed.

Lemma netOnly_await {A} (r : Request) (answer : Exn + A) :
  netOnly (Eff.await r answer).
Proof. repeat constructor. by exists r. Qed.

Lemma netOnly_bind {A B} (m : Eff.M A) (f : A → Eff.M B) :
  netOnly m → (∀ a, netOnly (f a)) → netOnly (m ≫= f).
Proof.
  unfold netOnly, Eff.trace, mbind, M_bind, Eff.bind.
  destruct m as [t [e|a]]; simpl; intros Hm Hf; [done|].
  specialize (Hf a). destruct (f a) as [t' r]. simpl in *.
  by apply Forall_app.
Qed.

Lemma netOnly_try_catch {A} (m : Eff.M A) (h : Exn → Eff.M A) :
  netOnly m → (∀ e, netOnly (h e)) → netOnly (Eff.try_catch m h).
Proof.
  unfold netOnly, Eff.trace, Eff.try_catch.
  destruct m as [t [e|a]]; simpl; intros Hm Hh; [|done].
  specialize (Hh e). destruct (h e) as [t' r]. simpl in *.
  by apply Forall_app.
Qed.

Lemma netOnly_for_of {A S} (l : list A) (body : S → A → Eff.M S) (s : S) :
  (∀ s x, netOnly (body s x)) → netOnly (Eff.for_of l body s).
Proof.
  intros Hbody. revert s. induction l as [|x l IH]; intros s; simpl.
  - apply netOnly_ret.
  - apply (netOnly_bind (body s x)); [apply Hbody|apply IH].
Qed.

Lemma netOnly_handed {A} (m : Eff.M A) :
  netOnly m → Main.handedToReporter (Eff.trace m) = [].
Proof.
  unfold netOnly. generalize (Eff.trace m). intros t.
  induction 1 as [|e t [r ->] _ IH]; [done|]. simpl. exact IH.
Qed.

Lemma netOnly_getCommitsForRepo (w : World) (repoFullName : string)
    (since until maxBranches : Z) :
  netOnly (GitHubService.getCommitsForRepo w repoFullName since until
             maxBranches).
Proof.
  unfold GitHubService.getCommitsForRepo, GitHubService.getBranchesForRepo.
  destruct (negb _ || negb _); [apply netOnly_throw|].
  apply netOnly_bind; [apply netOnly_await|]. intros branches.
  apply netOnly_bind; [|intros; apply netOnly_ret].
  apply netOnly_for_of. intros st branch.
  apply netOnly_try_catch; [|intros; apply netOnly_ret].
  apply netOnly_bind; [apply netOnly_await|intros; apply netOnly_ret].
Qed.

Lemma netOnly_fetchEvents (w : World) (targetUsers targetRepos : list string)
    (org : option string) (date maxBranches : Z) :
  netOnly (Main.fetchEvents w targetUsers targetRepos org date maxBranches).
Proof.
  unfold Main.fetchEvents.
  apply netOnly_bind.
  { unfold Main.resolveRepos.
    apply netOnly_bind.
    - destruct (JS.truthy org); [|apply netOnly_ret].
      apply netOnly_bind; [apply netOnly_await|intros; apply netOnly_ret].
    - intros repos. apply netOnly_bind; [apply netOnly_await|].
      intros; apply netOnly_ret. }
  intros repos. apply netOnly_bind.
  { apply netOnly_for_of. intros events repo.
    apply netOnly_try_catch; [|intros; apply netOnly_ret].
    apply netOnly_bind; [apply netOnly_getCommitsForRepo|].
    intros commits. destruct (0 <? length commits)%nat; apply netOnly_ret. }
  intros events. apply netOnly_for_of. intros evs user.
  apply netOnly_try_catch; [|intros; apply netOnly_ret].
  apply netOnly_bind; [apply netOnly_await|intros; apply netOnly_ret].
Qed.

Lemma handed_bind {A B} (m : Eff.M A) (f : A → Eff.M B)
    (cs : list Contribution) :
  cs ∈ Main.handedToReporter (Eff.trace (m ≫= f)) →
  cs ∈ Main.handedToReporter (Eff.trace m)
  ∨ ∃ a, Eff.outcome m = inr a
         ∧ cs ∈ Main.handedToReporter (Eff.trace (f a)).
Proof.
  unfold Eff.trace, Eff.outcome, mbind, M_bind, Eff.bind.
  destruct m as [t [e|a]]; simpl; [tauto|].
  destruct (f a) as [t' r] eqn:E. simpl.
  unfold Main.handedToReporter. rewrite omap_app, elem_of_app.
  intros [?|?]; [tauto|]. right. exists a. rewrite E. done.
Qed.

Lemma netOnly_resolveShortNames (config : Main.AppConfig) :
  netOnly (Main.resolveShortNames config).
Proof.
  unfold Main.resolveShortNames.
  destruct (existsb _ _); [|apply netOnly_ret].
  destruct (negb _); [apply netOnly_throw|apply netOnly_ret].
Qed.

Lemma bind_mret {A B} (a : A) (f : A → Eff.M B) : mret a ≫= f = f a.
Proof.
  unfold mret, M_ret, Eff.ret, mbind, M_bind, Eff.bind. by destruct (f a).
Qed.

(** Every list the Reporter is called with is the value [process] returned
    for the events of one of the two fetches of the run, as it is. *)
Lemma main_handed (w wPrev : World) (config : Main.AppConfig)
    (cs : list Contribution) :
  cs ∈ Main.handedToReporter
         (Eff.trace (Main.main w wPrev (mret config))) →
  ∃ targetRepos w0 date events,
    Eff.outcome (Main.resolveShortNames config) = inr targetRepos
    ∧ ((w0 = w ∧ date = Main.date config)
       ∨ (w0 = wPrev ∧ date = DateJS.addDays (Main.date config) (-1)))
    ∧ Eff.outcome (Main.fetchEvents w0 (Main.targetUsers config) targetRepos
                     (Main.organization config) date
                     (Main.maxBranches config))
      = inr events
    ∧ cs = EODProcessor.process (tz w0)
             (Main.processorFor config targetRepos date) events.
Proof.
  unfold Main.main. rewrite bind_mret. intros H.
  apply handed_bind in H as [H|(targetRepos & Htr & H)].
  { rewrite netOnly_handed in H by apply netOnly_resolveShortNames.
    by apply elem_of_nil in H. }
  apply handed_bind in H as [H|(events & Hev & H)].
  { rewrite netOnly_handed in H by apply netOnly_fetchEvents.
    by apply elem_of_nil in H. }
  cbv zeta in H.
  apply handed_bind in H as [H|(fallback & Hfb & H)].
  - destruct (_ && _); [|by apply elem_of_nil in H].
    apply handed_bind in H as [H|(prevEvents & Hprev & H)].
    { rewrite netOnly_handed in H by apply netOnly_fetchEvents.
      by apply elem_of_nil in H. }
    exists targetRepos, wPrev, (DateJS.addDays (Main.date config) (-1)),
      prevEvents.
    split; [done|]. split; [by right|]. split; [done|].
    destruct (0 <? length _)%nat; [|by apply elem_of_nil in H].
    simpl in H. rewrite !elem_of_cons in H.
    destruct H as [?|[?|H]]; [done|done|by apply elem_of_nil in H].
  - exists targetRepos, w, (Main.date config), events.
    split; [done|]. split; [by left|]. split; [done|].
    destruct fallback; [by apply elem_of_nil in H|].
    destruct (length _ =? 0)%nat; [by apply elem_of_nil in H|].
    simpl in H. rewrite !elem_of_cons in H.
    destruct H as [?|[?|H]]; [done|done|by apply elem_of_nil in H].
Qed.

(** C7 (the code departs from the claim).  In the run on a remote that lists
    the repository of the organization before the one of the account, the
    Reporter is called (print, then file) with the contributions in the
    order in which their repositories were first seen, zeta-org/app before
    alpha/lib: the list is not sorted by repository name.  On the events of
    that run the newer copy of [process], which ends with a sort by
    repository name, returns alpha/lib before zeta-org/app.  In general the
    Reporter only ever receives what [process] returned for the events of a
    fetch of the run, unchanged, and [process] returns one Contribution per
    repository in first-seen order: no sort by name takes place. *)
Theorem reporter_receives_unsorted_contributions :
  Main.handedToReporter
    (Eff.trace (Main.main Sample.world Sample.world (mret Sample.config)))
  = [Sample.contributions; Sample.contributions]
  ∧ repo <$> Sample.contributions = ["zeta-org/app"; "alpha/lib"]
  ∧ ¬ StronglySorted repoLe (repo <$> Sample.contributions)
  ∧ (∃ events,
       Eff.outcome (Main.fetchEvents Sample.world
                      (Main.targetUsers Sample.config)
                      (Main.targetRepos Sample.config)
                      (Main.organization Sample.config)
                      (Main.date Sample.config)
                      (Main.maxBranches Sample.config))
       = inr events
       ∧ EODProcessor.process (tz Sample.world)
           (Main.processorFor Sample.config (Main.targetRepos Sample.config)
              (Main.date Sample.config)) events
         = Sample.contributions
       ∧ repo <$> EODProcessorSorted.process JSString.defaultCompare
                    (tz Sample.world)
                    (Main.processorFor Sample.config
                       (Main.targetRepos Sample.config)
                       (Main.date Sample.config)) events
         = ["alpha/lib"; "zeta-org/app"])
  ∧ (∀ w wPrev config cs,
       cs ∈ Main.handedToReporter
              (Eff.trace (Main.main w wPrev (mret config))) →
       ∃ targetRepos w0 date events,
         Eff.outcome (Main.resolveShortNames config) = inr targetRepos
         ∧ ((w0 = w ∧ date = Main.date config)
            ∨ (w0 = wPrev ∧ date = DateJS.addDays (Main.date config) (-1)))
         ∧ Eff.outcome (Main.fetchEvents w0 (Main.targetUsers config)
                          targetRepos (Main.organization config) date
                          (Main.maxBranches config))
           = inr events
         ∧ cs = EODProcessor.process (tz w0)
                  (Main.processorFor config targetRepos date) events
         ∧ repo <$> cs
           = firstSeenBy id
               (repo_name
                <$> filter (contributes (tz w0)
                              (Main.processorFor config targetRepos date))
                           events)).
Proof.
  split; [by vm_compute|]. split; [done|]. split.
  { intros H. apply StronglySorted_inv in H as [_ H].
    apply Forall_cons in H as [H _]. vm_compute in H. discriminate. }
  split.
  { eexists. split; [by vm_compute|]. split; by vm_compute. }
  intros w wPrev config cs H.
  destruct (main_handed w wPrev config cs H)
    as (tr & w0 & d & evs & Htr & Hw & Hev & ->).
  exists tr, w0, d, evs. repeat (split; [done|]). apply process_repos.
Qed.

(** The list printed in the sample run is what [process] returned for the
    events fetched for the target date. *)
Lemma reporter_receives_unsorted_contributions_witness :
  ∃ targetRepos w0 date events,
    Eff.outcome (Main.resolveShortNames Sample.config) = inr targetRepos
    ∧ ((w0 = Sample.world ∧ date = Main.date Sample.config)
       ∨ (w0 = Sample.pushWorld
          ∧ date = DateJS.addDays (Main.date Sample.config) (-1)))
    ∧ Eff.outcome (Main.fetchEvents w0 (Main.targetUsers Sample.config)
                     targetRepos (Main.organization Sample.config) date
                     (Main.maxBranches Sample.config))
      = inr events
    ∧ Sample.contributions
      = EODProcessor.process (tz w0)
          (Main.processorFor Sample.config targetRepos date) events
    ∧ repo <$> Sample.contributions
      = firstSeenBy id
          (repo_name
           <$> filter (contributes (tz w0)
                         (Main.processorFor Sample.config targetRepos date))
                      events).
Proof.
  apply (proj2 (proj2 (proj2 (proj2 reporter_receives_unsorted_contributions)))
           Sample.world Sample.pushWorld Sample.config).
  vm_compute. apply list_elem_of_here.
Defined.

(** ** Short repository names *)

Lemma includes_append (c : ascii) (a b : string) :
  JS.includes c (a +:+ b) = JS.includes c a || JS.includes c b.
Proof.
  induction a as [|x a IH]; simpl; [done|].
  by rewrite IH, orb_assoc.
Qed.

Lemma expanded_includes (org r : string) :
  JS.includes "/" (if JS.includes "/" r then r else org +:+ "/" +:+ r) = true.
Proof.
  destruct (JS.includes "/" r) eqn:E; [done|].
  rewrite !includes_append. simpl. by rewrite orb_true_r.
Qed.

Lemma existsb_short_expanded (org : string) (targetRepos : list string) :
  existsb (λ r, negb (JS.includes "/" r))
          ((λ r, if JS.includes "/" r then r else org +:+ "/" +:+ r)
           <$> targetRepos)
  = false.
Proof.
  induction targetRepos as [|r l IH]; [done|].
  rewrite fmap_cons. cbn [existsb]. by rewrite expanded_includes, IH.
Qed.

Lemma existsb_short (targetRepos : list string) :
  (∃ r, r ∈ targetRepos ∧ JS.includes "/" r = false) →
  existsb (λ r, negb (JS.includes "/" r)) targetRepos = true.
Proof.
  intros (r & Hin & Hr). apply existsb_exists. exists r.
  split; [by apply list_elem_of_In|]. by rewrite Hr.
Qed.

(** C9.  When some configured repository name has no [/]: without an
    organization (absent or empty) [main] throws before any effect, so no
    network call is made, and the process exits with code 1; with an
    organization, every such name is expanded to org/name, every name then
    has a [/], and the run is the run on the expanded list. *)
Theorem short_repo_names (w wPrev : World) (config : Main.AppConfig) :
  (∃ r, r ∈ Main.targetRepos config ∧ JS.includes "/" r = false) →
  (JS.truthy (Main.organization config) = false →
     Main.main w wPrev (mret config) = ([], inl Main.shortNamesError)
     ∧ Main.run w wPrev (mret config) = ([], 1))
  ∧ (∀ org, Main.organization config = Some org → org ≠ "" →
     let expanded :=
       (λ r, if JS.includes "/" r then r else org +:+ "/" +:+ r)
       <$> Main.targetRepos config in
     Main.resolveShortNames config = ([], inr expanded)
     ∧ Forall (λ r, JS.includes "/" r = true) expanded
     ∧ Main.main w wPrev (mret config)
       = Main.main w wPrev
           (mret {| Main.token := Main.token config;
                    Main.targetUsers := Main.targetUsers config;
                    Main.targetRepos := expanded;
                    Main.organization := Main.organization config;
                    Main.date := Main.date config;
                    Main.checkPreviousDay := Main.checkPreviousDay config;
                    Main.maxBranches := Main.maxBranches config |})).
Proof.
  intros Hshort. apply existsb_short in Hshort. split.
  - intros Horg.
    assert (Main.main w wPrev (mret config)
            = ([], inl Main.shortNamesError)) as Hmain.
    { unfold Main.main. rewrite bind_mret.
      unfold Main.resolveShortNames. by rewrite Hshort, Horg. }
    split; [done|]. unfold Main.run. by rewrite Hmain.
  - intros org Horg Hne expanded.
    assert (Main.resolveShortNames config = ([], inr expanded)) as Hres.
    { unfold Main.resolveShortNames.
      rewrite Hshort, Horg, truthy_Some by done. done. }
    split; [done|]. split.
    + apply Forall_forall. intros r (r0 & -> & _)%list_elem_of_fmap.
      apply expanded_includes.
    + unfold Main.main. rewrite !bind_mret, Hres.
      unfold Main.resolveShortNames. cbn [Main.targetRepos].
      unfold expanded. rewrite existsb_short_expanded. done.
Qed.

(** [TARGET_REPOS=myrepo] without [GITHUB_ORG]: no effect, exit code 1. *)
Lemma short_repo_names_witness :
  Main.run Sample.world Sample.world (mret Sample.shortNameConfig) = ([], 1).
Proof.
  destruct (short_repo_names Sample.world Sample.world Sample.shortNameConfig)
    as [H _].
  - exists "myrepo". split; [apply list_elem_of_here|reflexivity].
  - apply H. reflexivity.
Defined.

(** ** Commit records *)


Lemma outcome_bind {A B} (m : Eff.M A) (f : A → Eff.M B) :
  Eff.outcome (m ≫= f)
  = match Eff.outcome m with
    | inl e => inl e
    | inr a => Eff.outcome (f a)
    end.
Proof.
  unfold Eff.outcome, mbind, M_bind, Eff.bind.
  destruct m as [t [e|a]]; simpl; [done|]. by destruct (f a).
Qed.

Lemma outcome_for_of_cons {A S} (x : A) (l : list A)
    (body : S → A → Eff.M S) (s : S) :
  Eff.outcome (Eff.for_of (x :: l) body s)
  = match Eff.outcome (body s x) with
    | inl e => inl e
    | inr s' => Eff.outcome (Eff.for_of l body s')
    end.
Proof. apply (outcome_bind (body s x)). Qed.

Lemma repo_turn_outcome (w : World) (sinceISO untilISO maxBranches : Z)
    (repo : string) (events : list GitHubEvent) :
  let turn :=
    Eff.try_catch
      (commits ← GitHubService.getCommitsForRepo w repo sinceISO untilISO
                   maxBranches;
       if (0 <? length commits)%nat
       then mret (events ++ [Main.synthesize sinceISO repo commits])
       else mret events)
      (λ _, mret events) in
  Eff.outcome turn = inr events
  ∨ ∃ commits,
      Eff.outcome turn
      = inr (events ++ [Main.synthesize sinceISO repo commits]).
Proof.
  unfold Eff.outcome, Eff.try_catch, mbind, M_bind, Eff.bind.
  destruct (GitHubService.getCommitsForRepo w repo sinceISO untilISO
              maxBranches) as [t [e|commits]]; simpl; [by left|].
  destruct (0 <? length commits)%nat; simpl; [right; by exists commits|by left].
Qed.

(** The loop over the repositories always completes; it adds events stamped
    [sinceISO], at most one per repository, in the order of the
    repositories. *)
Lemma fetchRepoEvents_outcome (w : World) (sinceISO untilISO maxBranches : Z)
    (repos : list string) (events : list GitHubEvent) :
  ∃ added,
    Eff.outcome
      (Main.fetchRepoEvents w repos sinceISO untilISO maxBranches events)
      = inr (events ++ added)
    ∧ Forall (λ e, created_at e = sinceISO ∧ type e = "PushEvent") added
    ∧ (repo_name <$> added) `sublist_of` repos.
Proof.
  unfold Main.fetchRepoEvents. revert events.
  induction repos as [|repo repos IH]; intros events.
  - exists []. by rewrite app_nil_r.
  - rewrite outcome_for_of_cons.
    destruct (repo_turn_outcome w sinceISO untilISO maxBranches repo events)
      as [H|[commits H]]; cbv zeta in H; rewrite H.
    + destruct (IH events) as (added & Hout & Hall & Hsub).
      exists added. split; [done|]. split; [done|].
      by apply sublist_cons.
    + destruct (IH (events ++ [Main.synthesize sinceISO repo commits]))
        as (added & Hout & Hall & Hsub).
      exists (Main.synthesize sinceISO repo commits :: added).
      split; [by rewrite Hout, <- app_assoc|].
      split; [by constructor|].
      rewrite fmap_cons. by apply sublist_skip.
Qed.



(** * Further properties of the services *)

(** ** getCommitsForRepo: errors and cost *)

Lemma split_no_separator (sep : ascii) (s : string) :
  JS.includes sep s = false → JS.split sep s = [s].
Proof.
  induction s as [|c s IH]; simpl; [done|].
  intros [Hc Hs]%orb_false_iff. rewrite Hc, IH by done. done.
Qed.

Lemma getCommitsForRepo_invalid (w : World) (repoFullName : string)
    (since until maxBranches : Z) :
  JS.truthy (JS.split "/" repoFullName !! 0%nat) = false
  ∨ JS.truthy (JS.split "/" repoFullName !! 1%nat) = false →
  GitHubService.getCommitsForRepo w repoFullName since until maxBranches
  = ([], inl (Error ("Invalid repo format: " +:+ repoFullName))).
Proof.
  intros H. unfold GitHubService.getCommitsForRepo.
  destruct H as [-> | ->]; simpl; [done|]. by rewrite orb_true_r.
Qed.

Lemma getCommitsForRepo_listing_fails (w : World)
    (repoFullName owner repo : string) (since until maxBranches : Z)
    (e : Exn) :
  JS.split "/" repoFullName !! 0%nat = Some owner → owner ≠ "" →
  JS.split "/" repoFullName !! 1%nat = Some repo → repo ≠ "" →
  branchesOf w owner repo = inl e →
  GitHubService.getCommitsForRepo w repoFullName since until maxBranches
  = ([Net (GetBranches owner repo)], inl e).
Proof.
  intros Ho Hone Hr Hrne Hb.
  unfold GitHubService.getCommitsForRepo, GitHubService.getBranchesForRepo.
  rewrite Ho, Hr, !truthy_Some by done. cbn -[mbind Eff.for_of].
  rewrite Hb. done.
Qed.

(** X1.  [getCommitsForRepo] on a name without [/] throws
    [Invalid repo format] before any request; on a well-formed name whose
    branch listing is rejected, it makes that one request and rejects with
    the same error (no commit request is made). *)
Theorem getCommitsForRepo_errors (w : World) (repoFullName : string)
    (since until maxBranches : Z) :
  (JS.includes "/" repoFullName = false →
   GitHubService.getCommitsForRepo w repoFullName since until maxBranches
   = ([], inl (Error ("Invalid repo format: " +:+ repoFullName))))
  ∧ (∀ owner repo e,
       JS.split "/" repoFullName !! 0%nat = Some owner → owner ≠ "" →
       JS.split "/" repoFullName !! 1%nat = Some repo → repo ≠ "" →
       branchesOf w owner repo = inl e →
       GitHubService.getCommitsForRepo w repoFullName since until maxBranches
       = ([Net (GetBranches owner repo)], inl e)).
Proof.
  split.
  - intros Hno. apply getCommitsForRepo_invalid. right.
    by rewrite split_no_separator.
  - intros owner repo e. apply getCommitsForRepo_listing_fails.
Qed.

(** The name myrepo has no [/]. *)
Lemma getCommitsForRepo_errors_witness :
  GitHubService.getCommitsForRepo Sample.world "myrepo" 0 86400000 10
  = ([], inl (Error "Invalid repo format: myrepo")).
Proof.
  apply (proj1 (getCommitsForRepo_errors Sample.world "myrepo" 0 86400000 10)).
  reflexivity.
Defined.

Lemma slice0_sublist {A} (l : list A) (e : Z) : JS.slice0 l e `sublist_of` l.
Proof. unfold JS.slice0. apply sublist_take. Qed.

Lemma slice0_length_le {A} (l : list A) (e : Z) :
  0 ≤ e → Z.of_nat (length (JS.slice0 l e)) ≤ e.
Proof.
  intros He. unfold JS.slice0. destruct (e <? 0) eqn:E; [lia|].
  rewrite length_take. lia.
Qed.

Lemma sampleBranches_length (branches : list string) (maxBranches : Z) :
  1 ≤ maxBranches →
  Z.of_nat (length (GitHubService.sampleBranches branches maxBranches))
  ≤ maxBranches.
Proof.
  intros Hcap. unfold GitHubService.sampleBranches.
  destruct (Z.of_nat (length branches) >? maxBranches) eqn:E; [|lia].
  set (kept := match snd <$> list_find _ branches with
               | Some b => [b] | None => [] end).
  assert (length kept ≤ 1)%nat
    by (unfold kept; destruct (snd <$> list_find _ branches); simpl; lia).
  rewrite length_app.
  pose proof (slice0_length_le
                (filter (λ b, b ≠ "main" ∧ b ≠ "master") branches)
                (maxBranches - Z.of_nat (length kept))). lia.
Qed.

(** X2.  For a cap of at least 1, [getCommitsForRepo] never makes more than
    1 + maxBranches requests, whatever the repository and whatever the
    remote answers, and all its effects are requests. *)
Theorem getCommitsForRepo_request_bound (w : World) (repoFullName : string)
    (since until maxBranches : Z) :
  1 ≤ maxBranches →
  let t := Eff.trace (GitHubService.getCommitsForRepo w repoFullName since
                        until maxBranches) in
  Z.of_nat (length t) ≤ 1 + maxBranches ∧ Forall (λ e, ∃ r, e = Net r) t.
Proof.
  intros Hcap t. split; [|apply netOnly_getCommitsForRepo].
  unfold t.
  destruct (JS.split "/" repoFullName !! 0%nat) as [owner|] eqn:Ho;
    [|rewrite getCommitsForRepo_invalid by (rewrite Ho; by left);
      simpl; lia].
  destruct (JS.split "/" repoFullName !! 1%nat) as [repo|] eqn:Hr;
    [|rewrite getCommitsForRepo_invalid by (rewrite Hr; by right);
      simpl; lia].
  destruct (decide (owner = "")) as [->|Hone];
    [rewrite getCommitsForRepo_invalid by (rewrite Ho; by left); simpl; lia|].
  destruct (decide (repo = "")) as [->|Hrne];
    [rewrite getCommitsForRepo_invalid by (rewrite Hr; by right); simpl; lia|].
  destruct (branchesOf w owner repo) as [e|branches] eqn:Hb.
  - erewrite getCommitsForRepo_listing_fails by done. simpl. lia.
  - erewrite getCommitsForRepo_run by done.
    cbn [Eff.trace fst length]. rewrite length_fmap.
    pose proof (sampleBranches_length branches maxBranches Hcap). lia.
Qed.

(** With the cap 10 the sample repository costs at most 11 requests. *)
Lemma getCommitsForRepo_request_bound_witness :
  Z.of_nat (length (Eff.trace (GitHubService.getCommitsForRepo Sample.world
                                 "zeta-org/app" 0 86400000 10))) ≤ 1 + 10.
Proof.
  apply (getCommitsForRepo_request_bound Sample.world "zeta-org/app" 0
           86400000 10). lia.
Defined.

(** X3.  Branch sampling only selects branches of the listing, each as often
    at most as the listing has it: the sample of a duplicate-free listing is
    duplicate-free, whatever the cap. *)
Theorem sampleBranches_subset (branches : list string) (maxBranches : Z) :
  (∀ b, b ∈ GitHubService.sampleBranches branches maxBranches → b ∈ branches)
  ∧ (NoDup branches →
     NoDup (GitHubService.sampleBranches branches maxBranches)).
Proof.
  unfold GitHubService.sampleBranches.
  destruct (Z.of_nat (length branches) >? maxBranches); [|done].
  rewrite list_find_head_filter.
  set (others := filter (λ b, b ≠ "main" ∧ b ≠ "master") branches).
  assert (Hothers : ∀ b e, b ∈ JS.slice0 others e →
                           b ∈ branches ∧ b ≠ "main" ∧ b ≠ "master").
  { intros b e Hb.
    pose proof (elem_of_sublist _ _ _ Hb (slice0_sublist others e)) as Hb'.
    apply list_elem_of_filter in Hb'. tauto. }
  destruct (head (filter (λ b, b = "main" ∨ b = "master") branches))
    as [m|] eqn:Hm.
  - apply head_Some_elem_of, list_elem_of_filter in Hm as [Hm Hin].
    split.
    + intros b [->%list_elem_of_singleton|Hb]%elem_of_app; [done|].
      apply Hothers in Hb; tauto.
    + intros Hnd. apply NoDup_app. split; [apply NoDup_singleton|].
      split.
      * intros b ->%list_elem_of_singleton Hb.
        apply Hothers in Hb. destruct Hm; subst; tauto.
      * eapply sublist_NoDup; [|apply slice0_sublist].
        by apply NoDup_filter.
  - split.
    + intros b Hb. simpl in Hb. apply Hothers in Hb; tauto.
    + intros Hnd. simpl. eapply sublist_NoDup; [|apply slice0_sublist].
      by apply NoDup_filter.
Qed.

(** The sample of the duplicate-free listing master, main, dev. *)
Lemma sampleBranches_subset_witness :
  NoDup (GitHubService.sampleBranches ["master"; "main"; "dev"] 2).
Proof.
  apply (proj2 (sampleBranches_subset ["master"; "main"; "dev"] 2)).
  apply (@bool_decide_unpack _ (NoDup_dec _)). by vm_compute.
Defined.

(** ** Repository resolution *)

Lemma split_length (sep : ascii) (s : string) :
  length (JS.split sep s) = S (occurrences sep s).
Proof.
  induction s as [|c s IH]; simpl; [done|].
  destruct (Ascii.eqb c sep); simpl; [by rewrite IH|].
  destruct (JS.split sep s); simpl in *; done.
Qed.

Lemma includes_occurrences (c : ascii) (s : string) :
  JS.includes c s = (0 <? occurrences c s)%nat.
Proof.
  induction s as [|c' s IH]; simpl; [done|].
  destruct (Ascii.eqb c' c); simpl; [done|apply IH].
Qed.

(** X4.  An explicitly configured repository name is accepted by
    [fetchEvents] exactly when it contains one [/] and no more: names such
    as [a/b/c] and bare names are skipped. *)
Theorem isValidFullRepo_one_separator (r : string) :
  Main.isValidFullRepo r = true ↔ occurrences "/" r = 1%nat.
Proof.
  unfold Main.isValidFullRepo.
  rewrite includes_occurrences, split_length, andb_true_iff.
  rewrite Nat.ltb_lt, Nat.eqb_eq. lia.
Qed.

Lemma foldl_valid_targets (targets seen : list string) :
  foldl (λ s r, if negb (Main.isValidFullRepo r) then s else Main.Set_add r s)
        seen (filter (λ r, JS.truthy (Some r)) targets)
  = foldl (λ s r, Main.Set_add r s) seen
          (filter (λ r, Main.isValidFullRepo r) targets).
Proof.
  revert seen. induction targets as [|r l IH]; intros seen; [done|].
  rewrite !filter_cons.
  destruct (Main.isValidFullRepo r) eqn:Hv.
  - assert (JS.truthy (Some r) = true) as Ht.
    { destruct r as [|c r']; [by vm_compute in Hv|reflexivity]. }
    rewrite decide_True by (by rewrite Ht).
    rewrite decide_True by done. cbn [foldl]. rewrite Hv. apply IH.
  - rewrite (decide_False (P := Is_true false)) by (simpl; tauto).
    destruct (decide (JS.truthy (Some r))); [|apply IH].
    cbn [foldl]. rewrite Hv. apply IH.
Qed.

Lemma resolveRepos_run (w : World) (targetRepos : list string)
    (org : option string) :
  Eff.outcome (Main.resolveRepos w targetRepos org)
  = match orgListing w org with
    | inl e => inl e
    | inr orgs =>
        match userRepos w with
        | inl e => inl e
        | inr users =>
            inr (firstSeenBy id
                   (orgs ++ users
                    ++ filter (λ r, Main.isValidFullRepo r) targetRepos))
        end
    end.
Proof.
  unfold Main.resolveRepos, orgListing, GitHubService.getOrgRepos,
    GitHubService.getUserRepos.
  assert (Hfinal : ∀ orgs users,
    foldl (λ s r, if negb (Main.isValidFullRepo r) then s
                  else Main.Set_add r s)
          (foldl (λ s r, Main.Set_add r s)
                 (foldl (λ s r, Main.Set_add r s) [] orgs) users)
          (filter (λ r, JS.truthy (Some r)) targetRepos)
    = firstSeenBy id
        (orgs ++ users ++ filter (λ r, Main.isValidFullRepo r) targetRepos)).
  { intros orgs users.
    rewrite foldl_valid_targets, <- !foldl_app, foldl_Set_add_firstSeen.
    simpl. apply filter_all. intros r. apply not_elem_of_nil. }
  cbv zeta. rewrite outcome_bind.
  destruct (JS.truthy org).
  - rewrite outcome_bind. unfold Eff.await at 1. cbn [Eff.outcome snd].
    destruct (orgRepos w (default "" org)) as [e|orgs]; [done|].
    cbn [Eff.outcome snd mret M_ret Eff.ret].
    rewrite outcome_bind. unfold Eff.await. cbn [Eff.outcome snd].
    destruct (userRepos w) as [e|users]; [done|].
    cbn [Eff.outcome snd mret M_ret Eff.ret]. by rewrite Hfinal.
  - cbn [Eff.outcome snd mret M_ret Eff.ret].
    rewrite outcome_bind. unfold Eff.await. cbn [Eff.outcome snd].
    destruct (userRepos w) as [e|users]; [done|].
    cbn [Eff.outcome snd mret M_ret Eff.ret]. f_equal.
    exact (Hfinal [] users).
Qed.

(** X5.  The repositories [fetchEvents] scans: if the listing of the
    organization (asked only when one is configured) or of the account is
    rejected, the resolution fails with that error; otherwise it returns the
    repositories of the organization, then of the account, then the
    configured names with exactly one [/], each name once, in first-seen
    order. *)
Theorem resolveRepos_result (w : World) (targetRepos : list string)
    (org : option string) :
  Eff.outcome (Main.resolveRepos w targetRepos org)
  = match orgListing w org with
    | inl e => inl e
    | inr orgs =>
        match userRepos w with
        | inl e => inl e
        | inr users =>
            inr (firstSeenBy id
                   (orgs ++ users
                    ++ filter (λ r, Main.isValidFullRepo r) targetRepos))
        end
    end
  ∧ ∀ repos, Eff.outcome (Main.resolveRepos w targetRepos org) = inr repos →
      NoDup repos
      ∧ ∀ r, r ∈ targetRepos → r ∈ repos ∨ Main.isValidFullRepo r = false.
Proof.
  split; [apply resolveRepos_run|].
  intros repos. rewrite resolveRepos_run.
  destruct (orgListing w org) as [e|orgs]; [done|].
  destruct (userRepos w) as [e|users]; [done|].
  intros [= <-]. split.
  - pose proof (firstSeenBy_NoDup id
      (orgs ++ users ++ filter (λ r, Main.isValidFullRepo r) targetRepos)) as H.
    by rewrite list_fmap_id in H.
  - intros r Hr. destruct (Main.isValidFullRepo r) eqn:Hv; [left|by right].
    pose proof (firstSeenBy_keys id
      (orgs ++ users ++ filter (λ r, Main.isValidFullRepo r) targetRepos) r)
      as H.
    rewrite !list_fmap_id in H. apply H.
    rewrite !elem_of_app, list_elem_of_filter. right. right.
    split; [by rewrite Hv|done].
Qed.

(** The sample remote, asked for the organization and one explicit name. *)
Lemma resolveRepos_result_witness :
  NoDup ["zeta-org/app"; "alpha/lib"; "beta/tool"].
Proof.
  apply (proj2 (resolveRepos_result Sample.world ["beta/tool"; "alpha/lib"; "bare"]
                  (Some "zeta-org"))).
  by vm_compute.
Defined.

(** ** fetchEvents and the run *)

Lemma answered_cons {A} (r : Exn + list A) (rs : list (Exn + list A)) :
  answered (r :: rs) = answered [r] ++ answered rs.
Proof.
  unfold answered. destruct r as [e|d]; simpl; [done|].
  by rewrite app_nil_r.
Qed.

Lemma user_turn_outcome (w : World) (user : string)
    (events : list GitHubEvent) :
  Eff.outcome
    (Eff.try_catch
       (userEvents ← GitHubService.getUserPublicEvents w user;
        mret (events ++ userEvents))
       (λ _, mret events))
  = inr (events ++ answered [userPublicEvents w user]).
Proof.
  unfold Eff.outcome, Eff.try_catch, mbind, M_bind, Eff.bind,
    GitHubService.getUserPublicEvents, Eff.await, answered.
  destruct (userPublicEvents w user) as [e|evs]; simpl.
  - by rewrite app_nil_r.
  - by rewrite app_nil_r.
Qed.

Lemma fetchUserEvents_outcome (w : World) (targetUsers : list string)
    (events : list GitHubEvent) :
  Eff.outcome (Main.fetchUserEvents w targetUsers events)
  = inr (events ++ answered (userPublicEvents w <$> targetUsers)).
Proof.
  unfold Main.fetchUserEvents. revert events.
  induction targetUsers as [|user users IH]; intros events.
  - simpl. by rewrite app_nil_r.
  - rewrite outcome_for_of_cons, user_turn_outcome, IH.
    rewrite fmap_cons.
    rewrite (answered_cons _ (userPublicEvents w <$> users)).
    by rewrite <- app_assoc.
Qed.

Lemma fetchEvents_outcome (w : World) (targetUsers targetRepos : list string)
    (org : option string) (date maxBranches : Z) :
  match Eff.outcome (Main.resolveRepos w targetRepos org) with
  | inl e =>
      Eff.outcome (Main.fetchEvents w targetUsers targetRepos org date
                     maxBranches) = inl e
  | inr repos =>
      ∃ synthesized,
        Eff.outcome (Main.fetchEvents w targetUsers targetRepos org date
                       maxBranches)
        = inr (synthesized ++ answered (userPublicEvents w <$> targetUsers))
        ∧ Forall (λ e, created_at e = DateJS.startOfDay (tz w) date
                       ∧ type e = "PushEvent") synthesized
        ∧ (repo_name <$> synthesized) `sublist_of` repos
  end.
Proof.
  unfold Main.fetchEvents. cbv zeta. rewrite outcome_bind.
  destruct (Eff.outcome (Main.resolveRepos w targetRepos org))
    as [e|repos]; [done|].
  destruct (fetchRepoEvents_outcome w (DateJS.setHours (tz w) date 0 0 0 0)
              (DateJS.addDays (DateJS.setHours (tz w) date 0 0 0 0) 1)
              maxBranches repos []) as (synthesized & Hout & Hall & Hsub).
  exists synthesized. rewrite outcome_bind, Hout.
  by rewrite fetchUserEvents_outcome.
Qed.

(** X6.  [fetchEvents] fails only when the resolution of the repositories
    fails (a rejected listing of the organization or of the account).
    Otherwise it returns, whatever the commit and event requests answer:
    first the synthesized push events, stamped with the start of the local
    day, at most one per resolved repository and in their order; then the
    public events of the target users whose request was answered, in the
    order of the users. *)
Theorem fetchEvents_result (w : World) (targetUsers targetRepos : list string)
    (org : option string) (date maxBranches : Z) :
  (∀ e, Eff.outcome (Main.resolveRepos w targetRepos org) = inl e →
        Eff.outcome (Main.fetchEvents w targetUsers targetRepos org date
                       maxBranches) = inl e)
  ∧ (∀ repos, Eff.outcome (Main.resolveRepos w targetRepos org) = inr repos →
       ∃ synthesized,
         Eff.outcome (Main.fetchEvents w targetUsers targetRepos org date
                        maxBranches)
         = inr (synthesized ++ answered (userPublicEvents w <$> targetUsers))
         ∧ Forall (λ e, created_at e = DateJS.startOfDay (tz w) date
                        ∧ type e = "PushEvent") synthesized
         ∧ (repo_name <$> synthesized) `sublist_of` repos).
Proof.
  pose proof (fetchEvents_outcome w targetUsers targetRepos org date
                maxBranches) as H.
  split.
  - intros e He. by rewrite He in H.
  - intros repos Hr. by rewrite Hr in H.
Qed.

(** The events of the run in which alice pushed twice. *)
Lemma fetchEvents_result_witness :
  ∃ synthesized,
    Eff.outcome (Main.fetchEvents Sample.pushWorld ["alice"] [] None
                   (Sample.dayStart + 50000000) 10)
    = inr (synthesized
           ++ answered (userPublicEvents Sample.pushWorld <$> ["alice"]))
    ∧ Forall (λ e, created_at e
                   = DateJS.startOfDay (tz Sample.pushWorld)
                       (Sample.dayStart + 50000000)
                   ∧ type e = "PushEvent") synthesized
    ∧ (repo_name <$> synthesized) `sublist_of` ["zeta-org/app"].
Proof.
  apply (proj2 (fetchEvents_result Sample.pushWorld ["alice"] [] None
                  (Sample.dayStart + 50000000) 10)).
  by vm_compute.
Defined.


Lemma trace_bind {A B} (m : Eff.M A) (f : A → Eff.M B) :
  Eff.trace (m ≫= f)
  = Eff.trace m ++ match Eff.outcome m with
                   | inl _ => []
                   | inr a => Eff.trace (f a)
                   end.
Proof.
  unfold Eff.trace, Eff.outcome, mbind, M_bind, Eff.bind.
  destruct m as [t [e|a]]; simpl; [by rewrite app_nil_r|]. by destruct (f a).
Qed.

Lemma main_outcome (w wPrev : World) (config : Main.AppConfig) :
  Eff.outcome (Main.main w wPrev (mret config))
  = match Eff.outcome (Main.resolveShortNames config) with
    | inl e => inl e
    | inr targetRepos =>
        match Eff.outcome (Main.fetchEvents w (Main.targetUsers config)
                             targetRepos (Main.organization config)
                             (Main.date config) (Main.maxBranches config)) with
        | inl e => inl e
        | inr events =>
            if (length (EODProcessor.process (tz w)
                          (Main.processorFor config targetRepos
                             (Main.date config)) events) =? 0)%nat
            then
              if Main.checkPreviousDay config
              then
                match Eff.outcome
                        (Main.fetchEvents wPrev (Main.targetUsers config)
                           targetRepos (Main.organization config)
                           (DateJS.addDays (Main.date config) (-1))
                           (Main.maxBranches config)) with
                | inl e => inl e
                | inr _ => inr tt
                end
              else inr tt
            else inl Main.summaryError
        end
    end.
Proof.
  unfold Main.main. rewrite bind_mret, outcome_bind.
  destruct (Eff.outcome (Main.resolveShortNames config)) as [e|tr]; [done|].
  rewrite outcome_bind.
  destruct (Eff.outcome (Main.fetchEvents w (Main.targetUsers config) tr
              (Main.organization config) (Main.date config)
              (Main.maxBranches config))) as [e|events]; [done|].
  cbv zeta. rewrite outcome_bind.
  destruct (length _ =? 0)%nat eqn:Hlen; cbn [andb].
  - destruct (Main.checkPreviousDay config).
    + rewrite outcome_bind.
      destruct (Eff.outcome (Main.fetchEvents wPrev _ _ _ _ _))
        as [e|prevEvents]; [done|].
      by destruct (0 <? length _)%nat.
    + done.
  - done.
Qed.

Lemma run_code (w wPrev : World) (validated : Eff.M Main.AppConfig) :
  (Main.run w wPrev validated).2
  = match Eff.outcome (Main.main w wPrev validated) with
    | inl _ => 1
    | inr _ => 0
    end.
Proof.
  unfold Main.run, Eff.outcome.
  by destruct (Main.main w wPrev validated) as [t [e|u]].
Qed.

(** X7.  Without [GITHUB_TOKEN] (unset or empty) the process exits with
    code 1 before any request.  It exits with code 0 only if the token is
    set, every short repository name could be expanded, both listings of
    repositories of the fetch for the target date were answered, and
    [process] found no contribution for the target date: a run that finds
    contributions for the target date never exits with 0. *)
Theorem run_exit_code (w wPrev : World) (env : Main.Env) :
  (JS.truthy (Main.GITHUB_TOKEN env) = false →
   Main.run w wPrev (Main.validateConfig env) = ([], 1))
  ∧ ((Main.run w wPrev (Main.validateConfig env)).2 = 0 →
     JS.truthy (Main.GITHUB_TOKEN env) = true
     ∧ ∃ config targetRepos repos events,
         Main.validateConfig env = mret config
         ∧ Eff.outcome (Main.resolveShortNames config) = inr targetRepos
         ∧ Eff.outcome (Main.resolveRepos w targetRepos
                          (Main.organization config)) = inr repos
         ∧ Eff.outcome (Main.fetchEvents w (Main.targetUsers config)
                          targetRepos (Main.organization config)
                          (Main.date config) (Main.maxBranches config))
           = inr events
         ∧ EODProcessor.process (tz w)
             (Main.processorFor config targetRepos (Main.date config)) events
           = [])
  ∧ ((Main.run w wPrev (Main.validateConfig env)).2 = 0
     ∨ (Main.run w wPrev (Main.validateConfig env)).2 = 1).
Proof.
  split; [|split].
  - intros Htoken. unfold Main.validateConfig. cbv zeta. rewrite Htoken.
    reflexivity.
  - unfold Main.validateConfig. cbv zeta.
    destruct (JS.truthy (Main.GITHUB_TOKEN env)); [|done].
    cbn [negb]. intros Hrun. split; [done|].
    eexists. rewrite run_code, main_outcome in Hrun.
    destruct (Eff.outcome (Main.resolveShortNames _)) as [e|tr] eqn:Htr;
      [done|].
    exists tr.
    pose proof (fetchEvents_outcome w
                  (ConfigList.envList (Main.TARGET_USERS env)) tr
                  (if JS.truthy (Main.GITHUB_ORG env)
                   then Main.GITHUB_ORG env else None)
                  (Main.targetDate env)
                  (default 10 (Main.MAX_BRANCHES env))) as Hfetch.
    cbn [Main.targetUsers Main.organization Main.date Main.maxBranches
         Main.checkPreviousDay] in *.
    destruct (Eff.outcome (Main.resolveRepos w tr _)) as [e|repos]
      eqn:Hrepos.
    { by rewrite Hfetch in Hrun. }
    destruct Hfetch as (synthesized & Hfetch & _).
    rewrite Hfetch in Hrun.
    eexists repos, _. split; [done|]. split; [done|].
    split; [exact Hrepos|]. split; [exact Hfetch|].
    destruct (EODProcessor.process _ _ _); [done|]. done.
  - rewrite run_code.
    destruct (Eff.outcome _); [by right|by left].
Qed.

(** [TARGET_USERS=carol]: none of the commits listed is by carol. *)
Lemma run_exit_code_witness :
  JS.truthy (Some "ghp_token") = true
  ∧ ∃ config targetRepos repos events,
      Main.validateConfig Sample.carolEnv = mret config
      ∧ Eff.outcome (Main.resolveShortNames config) = inr targetRepos
      ∧ Eff.outcome (Main.resolveRepos Sample.world targetRepos
                       (Main.organization config)) = inr repos
      ∧ Eff.outcome (Main.fetchEvents Sample.world (Main.targetUsers config)
                       targetRepos (Main.organization config)
                       (Main.date config) (Main.maxBranches config))
        = inr events
      ∧ EODProcessor.process (tz Sample.world)
          (Main.processorFor config targetRepos (Main.date config)) events
        = [].
Proof.
  apply (proj1 (proj2 (run_exit_code Sample.world Sample.world
                         Sample.carolEnv))).
  by vm_compute.
Defined.


(** ** The query window *)

Lemma traceAll_ret {A} (P : Effect → Prop) (a : A) : traceAll P (mret a).
Proof. constructor. Qed.

Lemma traceAll_throw {A} (P : Effect → Prop) (e : Exn) :
  traceAll P (@Eff.throw A e).
Proof. constructor. Qed.

Lemma traceAll_await {A} (P : Effect → Prop) (r : Request)
    (answer : Exn + A) :
  P (Net r) → traceAll P (Eff.await r answer).
Proof. intros H. by repeat constructor. Qed.

Lemma traceAll_bind {A B} (P : Effect → Prop) (m : Eff.M A)
    (f : A → Eff.M B) :
  traceAll P m → (∀ a, traceAll P (f a)) → traceAll P (m ≫= f).
Proof.
  unfold traceAll. rewrite trace_bind. intros Hm Hf.
  apply Forall_app. split; [done|].
  destruct (Eff.outcome m) as [e|a]; [constructor|apply Hf].
Qed.

Lemma traceAll_try_catch {A} (P : Effect → Prop) (m : Eff.M A)
    (h : Exn → Eff.M A) :
  traceAll P m → (∀ e, traceAll P (h e)) → traceAll P (Eff.try_catch m h).
Proof.
  unfold traceAll, Eff.trace, Eff.try_catch.
  destruct m as [t [e|a]]; simpl; intros Hm Hh; [|done].
  specialize (Hh e). destruct (h e) as [t' r]. simpl in *.
  by apply Forall_app.
Qed.

Lemma traceAll_for_of {A S} (P : Effect → Prop) (l : list A)
    (body : S → A → Eff.M S) (s : S) :
  (∀ s x, traceAll P (body s x)) → traceAll P (Eff.for_of l body s).
Proof.
  intros Hbody. revert s. induction l as [|x l IH]; intros s; simpl.
  - apply traceAll_ret.
  - apply (traceAll_bind P (body s x)); [apply Hbody|apply IH].
Qed.

Lemma fetchEvents_window (w : World) (targetUsers targetRepos : list string)
    (org : option string) (date maxBranches : Z) :
  traceAll (λ e, ∀ owner repo s u b,
              e = Net (GetCommits owner repo s u b) →
              s = DateJS.startOfDay (tz w) date
              ∧ u = DateJS.startOfDay (tz w) date + DateJS.msPerDay)
    (Main.fetchEvents w targetUsers targetRepos org date maxBranches).
Proof.
  unfold Main.fetchEvents. cbv zeta.
  apply traceAll_bind.
  { unfold Main.resolveRepos. cbv zeta. apply traceAll_bind.
    - destruct (JS.truthy org); [|apply traceAll_ret].
      apply traceAll_bind; [by apply traceAll_await|].
      intros; apply traceAll_ret.
    - intros repos. apply traceAll_bind; [by apply traceAll_await|].
      intros; apply traceAll_ret. }
  intros repos. apply traceAll_bind.
  { apply traceAll_for_of. intros events repo.
    apply traceAll_try_catch; [|intros; apply traceAll_ret].
    apply traceAll_bind.
    - unfold GitHubService.getCommitsForRepo,
        GitHubService.getBranchesForRepo.
      destruct (negb _ || negb _); [apply traceAll_throw|].
      apply traceAll_bind; [by apply traceAll_await|]. intros branches.
      apply traceAll_bind; [|intros; apply traceAll_ret].
      apply traceAll_for_of. intros st branch.
      apply traceAll_try_catch; [|intros; apply traceAll_ret].
      apply traceAll_bind; [|intros; apply traceAll_ret].
      apply traceAll_await. intros owner repo' s u b [= _ _ <- <- _].
      split; [done|]. unfold DateJS.addDays, DateJS.startOfDay. lia.
    - intros commits. destruct (0 <? length commits)%nat; apply traceAll_ret. }
  intros events. apply traceAll_for_of. intros evs user.
  apply traceAll_try_catch; [|intros; apply traceAll_ret].
  apply traceAll_bind; [by apply traceAll_await|intros; apply traceAll_ret].
Qed.

Lemma startOfDay_previous (tz d : Z) :
  DateJS.startOfDay tz (DateJS.addDays d (-1)) + DateJS.msPerDay
  = DateJS.startOfDay tz d.
Proof.
  unfold DateJS.startOfDay, DateJS.setHours, DateJS.addDays, DateJS.msPerDay.
  replace (d + -1 * 86400000 + tz) with (d + tz + (-1) * 86400000) by lia.
  rewrite Z_mod_plus_full. lia.
Qed.

(** X9.  Every commit request of [fetchEvents] for a date asks for the
    window from the start of the local day of that date to the start of the
    next day.  This window contains every instant the date filter of
    EODProcessor accepts for the same date, and it begins exactly where the
    window of the previous day (the fallback run) ends. *)
Theorem fetchEvents_query_window (w : World)
    (targetUsers targetRepos : list string) (org : option string)
    (date maxBranches : Z) (owner repo : string) (s u : Z) (b : string) :
  Net (GetCommits owner repo s u b)
    ∈ Eff.trace (Main.fetchEvents w targetUsers targetRepos org date
                   maxBranches) →
  s = DateJS.startOfDay (tz w) date
  ∧ u = s + DateJS.msPerDay
  ∧ (∀ cfg t, EODProcessor.date cfg = date →
              EODProcessor.isDateInRange (tz w) cfg t = true → s ≤ t < u)
  ∧ DateJS.startOfDay (tz w) (DateJS.addDays date (-1)) + DateJS.msPerDay = s.
Proof.
  intros Hin.
  pose proof (fetchEvents_window w targetUsers targetRepos org date
                maxBranches) as Hall.
  unfold traceAll in Hall.
  destruct (proj1 (Forall_forall _ _) Hall _ Hin owner repo s u b eq_refl)
    as [-> ->].
  split; [done|]. split; [done|]. split; [|apply startOfDay_previous].
  intros cfg t <- Ht. apply isDateInRange_spec in Ht.
  pose proof (setHours_start_end (tz w) (EODProcessor.date cfg)) as [He _].
  unfold DateJS.msPerDay in *. lia.
Qed.

(** The request for the branch main of zeta-org/app in the sample run. *)
Lemma fetchEvents_query_window_witness :
  Sample.dayStart = DateJS.startOfDay 0 (Sample.dayStart + 50000000)
  ∧ Sample.dayStart + 86400000 = Sample.dayStart + DateJS.msPerDay.
Proof.
  destruct (fetchEvents_query_window Sample.world ["alice"] []
              (Some "zeta-org") (Sample.dayStart + 50000000) 10
              "zeta-org" "app" Sample.dayStart (Sample.dayStart + 86400000)
              "main") as (H1 & H2 & _).
  - vm_compute. do 3 apply list_elem_of_further. apply list_elem_of_here.
  - split; [exact H1|exact H2].
Defined.

(** ** What sortAndDedup keeps *)

Lemma Map_set_keys {V} (k : string) (v : V) (m : list (string * V)) :
  (JS.Map_set k v m).*1 = Main.Set_add k m.*1.
Proof.
  unfold Main.Set_add. induction m as [|[k' v'] m IH]; [done|].
  cbn [JS.Map_set]. destruct (decide (k = k')) as [->|Hne].
  - rewrite !fmap_cons. cbn [fst].
    by rewrite decide_True by apply list_elem_of_here.
  - rewrite !fmap_cons, IH. cbn [fst].
    destruct (decide (k ∈ m.*1)) as [Hin|Hnin].
    + by rewrite decide_True by (by apply list_elem_of_further).
    + rewrite decide_False; [done|].
      rewrite elem_of_cons. intros [?|?]; done.
Qed.

Lemma Map_new_keys {V} (entries : list (string * V)) :
  (JS.Map_new entries).*1 = firstSeenBy id entries.*1.
Proof.
  unfold JS.Map_new.
  assert (∀ m, (foldl (λ m e, JS.Map_set e.1 e.2 m) m entries).*1
               = foldl (λ s r, Main.Set_add r s) m.*1 entries.*1) as ->.
  { induction entries as [|[k v] es IH]; intros m; [done|].
    cbn [foldl]. rewrite IH, Map_set_keys. done. }
  rewrite foldl_Set_add_firstSeen. simpl.
  apply filter_all. intros r. apply not_elem_of_nil.
Qed.

Lemma Map_set_NoDup {V} (k : string) (v : V) (m : list (string * V)) :
  NoDup m.*1 → NoDup (JS.Map_set k v m).*1.
Proof.
  intros Hnd. rewrite Map_set_keys. unfold Main.Set_add.
  destruct (decide (k ∈ m.*1)); [done|].
  apply NoDup_app. split; [done|]. split; [|apply NoDup_singleton].
  intros x Hx ->%list_elem_of_singleton. done.
Qed.

Lemma Map_set_elem_of {V} (k k0 : string) (v v0 : V)
    (m : list (string * V)) :
  NoDup m.*1 → (k, v) ∈ JS.Map_set k0 v0 m →
  (k, v) = (k0, v0) ∨ ((k, v) ∈ m ∧ k ≠ k0).
Proof.
  induction m as [|[k' v'] m IH]; cbn [JS.Map_set].
  - intros _ ->%list_elem_of_singleton. by left.
  - rewrite fmap_cons, NoDup_cons. cbn [fst]. intros [Hk' Hnd].
    destruct (decide (k0 = k')) as [->|Hne]; rewrite !elem_of_cons.
    + intros [?|Hin]; [by left|]. right. split; [by right|].
      intros ->. apply Hk'. apply list_elem_of_fmap. by exists (k', v).
    + intros [[= -> ->]|Hin].
      * right. split; [by left|done].
      * destruct (IH Hnd Hin) as [?|[? ?]]; [by left|]. right. tauto.
Qed.

(** A record of a [Map] built from a list of entries is the last entry of
    the list with its key. *)
Lemma Map_new_last {V} (entries : list (string * V)) (k : string) (v : V) :
  (k, v) ∈ JS.Map_new entries →
  ∃ l1 l2, entries = l1 ++ (k, v) :: l2 ∧ k ∉ l2.*1.
Proof.
  unfold JS.Map_new.
  assert (Hgen : ∀ m, NoDup m.*1 →
    (k, v) ∈ foldl (λ m e, JS.Map_set e.1 e.2 m) m entries →
    (∃ l1 l2, entries = l1 ++ (k, v) :: l2 ∧ k ∉ l2.*1)
    ∨ ((k, v) ∈ m ∧ k ∉ entries.*1)).
  { induction entries as [|[k0 v0] es IH]; intros m Hnd; cbn [foldl].
    - intros Hin. right. split; [done|apply not_elem_of_nil].
    - intros Hin.
      destruct (IH _ (Map_set_NoDup k0 v0 m Hnd) Hin)
        as [(l1 & l2 & -> & Hl2)|[Hm Hk]].
      + left. exists ((k0, v0) :: l1), l2. done.
      + cbn [fst snd] in Hm.
        destruct (Map_set_elem_of _ _ _ _ _ Hnd Hm) as [[= -> ->]|[Hin' Hne]].
        * left. by exists [], es.
        * right. split; [done|]. rewrite fmap_cons, not_elem_of_cons. done. }
  intros Hin. destruct (Hgen [] (NoDup_nil_2) Hin) as [?|[H _]]; [done|].
  by apply elem_of_nil in H.
Qed.

Lemma sortAndDedup_elem_of (l : list Commit) (c : Commit) :
  c ∈ Reporter.sortAndDedup l →
  ∃ l1 l2, JS.sort Reporter.compareFn l = l1 ++ c :: l2
           ∧ hash c ∉ hash <$> l2.
Proof.
  unfold Reporter.sortAndDedup, JS.Map_values.
  intros ((k & v) & -> & Hin)%list_elem_of_fmap. cbn [snd].
  destruct (Map_new_last _ _ _ Hin) as (e1 & e2 & Heq & Hk).
  assert (Hv : (k, v) ∈ map (λ c, (hash c, c))
                          (JS.sort Reporter.compareFn l))
    by (rewrite Heq; apply elem_of_app; right; apply list_elem_of_here).
  apply (list_elem_of_fmap (λ c, (hash c, c))) in Hv as (c' & [= -> ->] & _).
  exists e1.*2, e2.*2. split.
  - apply (f_equal (fmap snd)) in Heq.
    change (map (λ c, (hash c, c)) (JS.sort Reporter.compareFn l))
      with ((λ c, (hash c, c)) <$> JS.sort Reporter.compareFn l) in Heq.
    rewrite <- list_fmap_compose, list_fmap_id, fmap_app, fmap_cons in Heq.
    exact Heq.
  - intros (c2 & Hh & Hc2)%list_elem_of_fmap. apply Hk.
    apply list_elem_of_fmap in Hc2 as ((k2 & v2) & -> & Hin2).
    assert (Hv2 : (k2, v2) ∈ map (λ c, (hash c, c))
                             (JS.sort Reporter.compareFn l))
      by (rewrite Heq; apply elem_of_app; right;
          by apply list_elem_of_further).
    apply (list_elem_of_fmap (λ c, (hash c, c))) in Hv2
      as (c3 & [= -> ->] & _).
    cbn [snd] in Hh. rewrite Hh.
    apply list_elem_of_fmap. by exists (hash c3, c3).
Qed.

(** X10.  [sortAndDedup] always returns records of its input with pairwise
    distinct hashes, one for every hash of the input; the hashes come in
    the order in which they first occur in the sorted list, that is by
    decreasing latest timestamp. *)
Theorem sortAndDedup_hashes (l : list Commit) :
  NoDup (hash <$> Reporter.sortAndDedup l)
  ∧ hash <$> Reporter.sortAndDedup l
    = firstSeenBy id (hash <$> JS.sort Reporter.compareFn l)
  ∧ (∀ c, c ∈ Reporter.sortAndDedup l → c ∈ l)
  ∧ (∀ c, c ∈ l → hash c ∈ hash <$> Reporter.sortAndDedup l).
Proof.
  assert (Hkeys : hash <$> Reporter.sortAndDedup l
                  = firstSeenBy id (hash <$> JS.sort Reporter.compareFn l)).
  { unfold Reporter.sortAndDedup, JS.Map_values.
    set (entries := map (λ c, (hash c, c)) (JS.sort Reporter.compareFn l)).
    assert (Hentries : ∀ e, e ∈ entries → e.1 = hash e.2).
    { intros e (c & -> & _)%(list_elem_of_fmap (λ c, (hash c, c))). done. }
    assert (Hsub : ∀ e, e ∈ JS.Map_new entries → e.1 = hash e.2).
    { intros [k v] Hin. apply Hentries.
      destruct (Map_new_last _ _ _ Hin) as (l1 & l2 & -> & _).
      apply elem_of_app. right. apply list_elem_of_here. }
    rewrite <- list_fmap_compose.
    rewrite (list_fmap_ext (hash ∘ snd) fst (JS.Map_new entries))
      by (intros i e He%list_elem_of_lookup_2; simpl; by rewrite Hsub).
    rewrite Map_new_keys. f_equal. unfold entries.
    change (map ?f ?x) with (f <$> x). by rewrite <- list_fmap_compose. }
  split; [|split; [done|split]].
  - rewrite Hkeys.
    pose proof (firstSeenBy_NoDup id
                  (hash <$> JS.sort Reporter.compareFn l)) as H.
    by rewrite list_fmap_id in H.
  - intros c Hc. destruct (sortAndDedup_elem_of l c Hc) as (l1 & l2 & Heq & _).
    rewrite <- (sort_Permutation l), Heq.
    apply elem_of_app. right. apply list_elem_of_here.
  - intros c Hc. rewrite Hkeys.
    pose proof (firstSeenBy_keys id
                  (hash <$> JS.sort Reporter.compareFn l) (hash c)) as H.
    rewrite !list_fmap_id in H. apply H.
    rewrite sort_Permutation. by apply list_elem_of_fmap_2.
Qed.

(** The commit list of the sample run: both hashes are reported. *)
Lemma sortAndDedup_hashes_witness :
  hash Sample.loginFix_push ∈ hash <$> Reporter.sortAndDedup Sample.reported.
Proof.
  apply (proj2 (proj2 (proj2 (sortAndDedup_hashes Sample.reported)))).
  apply list_elem_of_further, list_elem_of_here.
Defined.

(** X11.  Among the commits that share a hash, the record [sortAndDedup]
    keeps is one with the earliest timestamp (the oldest report of the
    commit), not the most recent one. *)
Theorem sortAndDedup_keeps_earliest (l : list Commit) (c c' : Commit) :
  c ∈ Reporter.sortAndDedup l → c' ∈ l → hash c' = hash c →
  timestamp c ≤ timestamp c'.
Proof.
  intros Hc Hc' Hh.
  destruct (sortAndDedup_elem_of l c Hc) as (l1 & l2 & Heq & Hl2).
  pose proof (sort_sortedDesc l) as Hs. unfold Reporter.sortedDesc in Hs.
  rewrite Heq in Hs. rewrite <- (sort_Permutation l), Heq in Hc'.
  apply elem_of_app in Hc' as [Hc'|Hc'].
  - clear Heq Hc. induction l1 as [|x l1 IH]; [by apply elem_of_nil in Hc'|].
    cbn [app] in Hs. apply StronglySorted_inv in Hs as [Hs Hx].
    apply elem_of_cons in Hc' as [->|Hc']; [|by apply IH].
    apply (proj1 (Forall_forall _ _) Hx c).
    apply elem_of_app. right. apply list_elem_of_here.
  - apply elem_of_cons in Hc' as [->|Hc']; [lia|].
    exfalso. apply Hl2. rewrite <- Hh. by apply list_elem_of_fmap_2.
Qed.

(** The list a run hands to the Reporter: the start-of-day record of
    a1b2c3d is kept, the 15:00 record is the one dropped. *)
Lemma sortAndDedup_keeps_earliest_witness :
  timestamp Sample.loginFix_synth ≤ timestamp Sample.loginFix_push.
Proof.
  apply (sortAndDedup_keeps_earliest Sample.reported).
  - rewrite sortAndDedup_reported. apply list_elem_of_here.
  - apply list_elem_of_further, list_elem_of_here.
  - reflexivity.
Defined.

(** X12.  On a commit list without two commits of the same hash,
    [sortAndDedup] is the stable sort by descending timestamp: nothing is
    dropped, the result is in descending order, and applying it again
    changes nothing. *)
Theorem sortAndDedup_without_duplicates (l : list Commit) :
  NoDup (hash <$> l) →
  Reporter.sortAndDedup l ≡ₚ l
  ∧ Reporter.sortedDesc (Reporter.sortAndDedup l)
  ∧ Reporter.sortAndDedup (Reporter.sortAndDedup l) = Reporter.sortAndDedup l.
Proof.
  intros Hnd.
  destruct (sortAndDedup_distinct_hashes l Hnd) as (Heq & Hs & Hid).
  split; [|done]. rewrite Heq. apply sort_Permutation.
Qed.

(** Two different commits pushed at 15:00 and 10:00. *)
Lemma sortAndDedup_without_duplicates_witness :
  Reporter.sortAndDedup
    (Reporter.sortAndDedup [Sample.search_push; Sample.loginFix_push])
  = Reporter.sortAndDedup [Sample.search_push; Sample.loginFix_push].
Proof.
  apply (sortAndDedup_without_duplicates
           [Sample.search_push; Sample.loginFix_push]).
  apply (@bool_decide_unpack _ (NoDup_dec _)). by vm_compute.
Defined.

(** ** Comma-separated lists *)

Lemma split_parts_no_separator (sep : ascii) (s p : string) :
  p ∈ JS.split sep s → JS.includes sep p = false.
Proof.
  revert p. induction s as [|c s IH]; intros p; simpl.
  - by intros ->%list_elem_of_singleton.
  - destruct (Ascii.eqb c sep) eqn:Hc.
    + intros [->|Hp]%elem_of_cons; [done|by apply IH].
    + destruct (JS.split sep s) as [|hd tl].
      * intros ->%list_elem_of_singleton. simpl. by rewrite Hc.
      * intros [->|Hp]%elem_of_cons.
        -- simpl. rewrite Hc. apply IH, list_elem_of_here.
        -- by apply IH, list_elem_of_further.
Qed.

Lemma split_append (sep : ascii) (a b : string) :
  JS.split sep (a +:+ String sep b)
  = match JS.split sep a, JS.split sep b with
    | _, [] => JS.split sep a
    | l, hd :: tl => l ++ hd :: tl
    end.
Proof.
  assert (Hne : ∀ s, JS.split sep s ≠ []).
  { intros s. destruct s as [|c s]; simpl; [done|].
    destruct (Ascii.eqb c sep); [done|]. by destruct (JS.split sep s). }
  induction a as [|c a IH]; simpl.
  - rewrite Ascii.eqb_refl. by destruct (JS.split sep b).
  - rewrite IH. destruct (JS.split sep b) as [|hd tl] eqn:Hb;
      [by apply Hne in Hb|].
    destruct (Ascii.eqb c sep); [done|].
    destruct (JS.split sep a) as [|hd' tl'] eqn:Ha; [by apply Hne in Ha|].
    done.
Qed.

Lemma split_append_app (sep : ascii) (a b : string) :
  JS.split sep (a +:+ String sep b) = JS.split sep a ++ JS.split sep b.
Proof.
  rewrite split_append.
  destruct (JS.split sep b) as [|hd tl] eqn:Hb; [|done].
  by rewrite app_nil_r.
Qed.

Lemma trimStart_includes (c : ascii) (s : string) :
  JS.includes c s = false → JS.includes c (JSString.trimStart s) = false.
Proof.
  induction s as [|x s IH]; [done|]. cbn [JSString.trimStart].
  destruct (JSString.isWhiteSpace x); [|done].
  simpl. intros [_ ?]%orb_false_iff. by apply IH.
Qed.

Lemma trimEnd_includes (c : ascii) (s : string) :
  JS.includes c s = false → JS.includes c (JSString.trimEnd s) = false.
Proof.
  induction s as [|x s IH]; [done|]. simpl.
  intros [Hx Hs]%orb_false_iff. specialize (IH Hs).
  destruct (JSString.trimEnd s) as [|y r].
  - destruct (JSString.isWhiteSpace x); simpl; [done|by rewrite Hx].
  - simpl in *. by rewrite Hx, IH.
Qed.

Lemma trimStart_idem (s : string) :
  JSString.trimStart (JSString.trimStart s) = JSString.trimStart s.
Proof.
  induction s as [|x s IH]; [done|]. cbn [JSString.trimStart].
  destruct (JSString.isWhiteSpace x) eqn:Hx; [done|].
  cbn [JSString.trimStart]. by rewrite Hx.
Qed.

Lemma trimEnd_idem (s : string) :
  JSString.trimEnd (JSString.trimEnd s) = JSString.trimEnd s.
Proof.
  induction s as [|x s IH]; [done|]. cbn [JSString.trimEnd].
  destruct (JSString.trimEnd s) as [|y r] eqn:Hr.
  - destruct (JSString.isWhiteSpace x) eqn:Hx; [done|].
    cbn [JSString.trimEnd]. by rewrite Hx.
  - cbn [JSString.trimEnd] in *. by rewrite IH.
Qed.

(** The head of a string that starts with no blank stays its head. *)
Lemma trimStart_trimEnd (s : string) :
  JSString.trimStart (JSString.trimEnd (JSString.trimStart s))
  = JSString.trimEnd (JSString.trimStart s).
Proof.
  induction s as [|x s IH]; [done|]. cbn [JSString.trimStart].
  destruct (JSString.isWhiteSpace x) eqn:Hx; [done|].
  cbn [JSString.trimEnd].
  destruct (JSString.trimEnd s) as [|y r]; rewrite ?Hx;
    cbn [JSString.trimStart]; by rewrite Hx.
Qed.

Lemma trim_idem (s : string) :
  JSString.trim (JSString.trim s) = JSString.trim s.
Proof.
  unfold JSString.trim. by rewrite trimStart_trimEnd, trimEnd_idem.
Qed.

Lemma commaList_separator (a b : string) :
  ConfigList.commaList (a +:+ String "," b)
  = ConfigList.commaList a ++ ConfigList.commaList b.
Proof.
  unfold ConfigList.commaList.
  by rewrite split_append_app, fmap_app, filter_app.
Qed.

(** X13.  Every entry of a list read from a comma-separated value is
    non-empty, contains no comma and has no blank at either end; an empty or
    unset value gives the empty list; and the entries of [a,b] are the
    entries of [a] followed by those of [b]. *)
Theorem commaList_entries (raw : string) :
  Forall (λ u, u ≠ "" ∧ JS.includes "," u = false ∧ JSString.trim u = u)
         (ConfigList.commaList raw)
  ∧ ConfigList.commaList "" = []
  ∧ ConfigList.envList None = []
  ∧ ∀ a b, ConfigList.commaList (a +:+ String "," b)
           = ConfigList.commaList a ++ ConfigList.commaList b.
Proof.
  split; [|split; [done|split; [done|apply commaList_separator]]].
  apply Forall_forall. intros u.
  unfold ConfigList.commaList.
  rewrite list_elem_of_filter, list_elem_of_fmap.
  intros [Hu (p & -> & Hp)]. split; [|split].
  - intros Heq. by rewrite Heq in Hu.
  - unfold JSString.trim.
    apply trimEnd_includes, trimStart_includes.
    by apply (split_parts_no_separator _ raw).
  - apply trim_idem.
Qed.

Lemma commaList_single (u : string) :
  u ≠ "" → JS.includes "," u = false → JSString.trim u = u →
  ConfigList.commaList u = [u].
Proof.
  intros Hne Hc Ht. unfold ConfigList.commaList.
  rewrite split_no_separator by done. simpl. rewrite Ht.
  rewrite filter_cons, decide_True; [done|].
  simpl. by destruct (String.eqb_spec u "").
Qed.

(** X14.  Reading back a list of well-formed names (non-empty, without
    comma, without blank at either end) written with commas between them
    gives the list itself. *)
Theorem commaList_concat (names : list string) :
  Forall (λ u, u ≠ "" ∧ JS.includes "," u = false ∧ JSString.trim u = u)
         names →
  ConfigList.commaList (String.concat "," names) = names.
Proof.
  induction 1 as [|u names (Hne & Hc & Ht) Hall IH]; [done|].
  destruct names as [|v names].
  - simpl. by apply commaList_single.
  - change (String.concat "," (u :: v :: names))
      with (u +:+ String "," (String.concat "," (v :: names))).
    rewrite commaList_separator, IH, commaList_single by done. done.
Qed.

(** [TARGET_USERS=alice,bob-smith]. *)
Lemma commaList_concat_witness :
  ConfigList.commaList (String.concat "," ["alice"; "bob-smith"])
  = ["alice"; "bob-smith"].
Proof.
  apply commaList_concat.
  repeat (constructor; [by vm_compute|]). constructor.
Defined.

(** ** Nothing that qualifies is lost *)

(** A commit filed under a repository. *)
Lemma upsert_keeps (repoName : string) (userCommits : list Commit)
    (contributions : list Contribution) (r : string) (c : Commit) :
  (∃ x, x ∈ contributions ∧ repo x = r ∧ c ∈ commits x) →
  ∃ x, x ∈ upsert repoName userCommits contributions
       ∧ repo x = r ∧ c ∈ commits x.
Proof.
  induction contributions as [|y cs IH]; intros (x & Hx & Hr & Hc).
  - by apply elem_of_nil in Hx.
  - cbn [upsert]. apply elem_of_cons in Hx as [->|Hx].
    + destruct (decide (repo y = repoName)).
      * eexists. split; [apply list_elem_of_here|]. simpl.
        split; [done|]. apply elem_of_app. by left.
      * exists y. split; [apply list_elem_of_here|done].
    + destruct (decide (repo y = repoName)).
      * exists x. split; [by apply list_elem_of_further|done].
      * destruct IH as (x' & ? & ? & ?); [by exists x|].
        exists x'. split; [by apply list_elem_of_further|done].
Qed.

Lemma upsert_files (repoName : string) (userCommits : list Commit)
    (contributions : list Contribution) (c : Commit) :
  c ∈ userCommits →
  ∃ x, x ∈ upsert repoName userCommits contributions
       ∧ repo x = repoName ∧ c ∈ commits x.
Proof.
  intros Hc. induction contributions as [|y cs IH]; cbn [upsert].
  - eexists. split; [apply list_elem_of_here|]. done.
  - destruct (decide (repo y = repoName)) as [Hy|Hy].
    + eexists. split; [apply list_elem_of_here|]. simpl.
      split; [done|]. apply elem_of_app. by right.
    + destruct IH as (x & ? & ? & ?).
      exists x. split; [by apply list_elem_of_further|done].
Qed.

(** The loop, for any way [pick] of choosing the commits of an event:
    both copies of EODProcessor are instances. *)
Lemma grouping_complete (pick : GitHubEvent → list PayloadCommit → list Commit)
    (step : list Contribution → GitHubEvent → list Contribution)
    (filtered : list GitHubEvent) :
  (∀ contributions event,
     ((∀ cs, payload_commits event = Some cs → pick event cs = [])
      ∧ step contributions event = contributions)
     ∨ ∃ cs, payload_commits event = Some cs
             ∧ step contributions event
               = upsert (repo_name event) (pick event cs) contributions) →
  ∀ contributions event cs c,
    event ∈ filtered → payload_commits event = Some cs →
    c ∈ pick event cs →
    ∃ x, x ∈ foldl step contributions filtered
         ∧ repo x = repo_name event ∧ c ∈ commits x.
Proof.
  intros Hstep.
  assert (Hkeep : ∀ l contributions r c,
    (∃ x, x ∈ contributions ∧ repo x = r ∧ c ∈ commits x) →
    ∃ x, x ∈ foldl step contributions l ∧ repo x = r ∧ c ∈ commits x).
  { induction l as [|e l IH]; intros contributions r c Hx; [done|].
    cbn [foldl]. apply IH.
    destruct (Hstep contributions e) as [[_ ->]|(cs & _ & ->)]; [done|].
    by apply upsert_keeps. }
  induction filtered as [|e l IH]; intros contributions event cs c Hin Hcs Hc.
  - by apply elem_of_nil in Hin.
  - cbn [foldl]. apply elem_of_cons in Hin as [->|Hin]; [|by eapply IH].
    apply Hkeep.
    destruct (Hstep contributions e) as [[Hno _]|(cs' & Hcs' & ->)].
    + rewrite (Hno cs Hcs) in Hc. by apply elem_of_nil in Hc.
    + assert (cs' = cs) as -> by congruence. by apply upsert_files.
Qed.

(** X15.  [EODProcessor.process] loses no commit of a target user: every
    commit of an event that passes the filter, authored by a target user, is
    in the Contribution of the event's repository, with the event's
    timestamp. *)
Theorem process_complete (tz : Z) (cfg : EODProcessor.Config)
    (events : list GitHubEvent) (event : GitHubEvent)
    (cs : list PayloadCommit) (pc : PayloadCommit) :
  event ∈ events → EODProcessor.eventFilter tz cfg event = true →
  payload_commits event = Some cs → pc ∈ cs →
  author_name pc ∈ EODProcessor.targetUsers cfg →
  ∃ contribution,
    contribution ∈ EODProcessor.process tz cfg events
    ∧ repo contribution = repo_name event
    ∧ EODProcessor.toCommit event pc ∈ commits contribution.
Proof.
  intros Hin Hf Hcs Hpc Hau. unfold EODProcessor.process.
  apply (grouping_complete (EODProcessor.userCommitsOf cfg)
           (EODProcessor.processEvent cfg) _) with (cs := cs).
  - intros contributions e.
    destruct (processEvent_cases cfg contributions e)
      as [?|(cs' & ? & _ & ?)]; [by left|right; by exists cs'].
  - apply list_elem_of_filter. split; [by apply Is_true_true|done].
  - done.
  - apply userCommitsOf_elem_of. by exists pc.
Qed.

(** The commit of alice in a push event of alice and bob. *)
Lemma process_complete_witness :
  ∃ contribution,
    contribution
      ∈ EODProcessor.process 0 Sample.onlyAlice
          [Sample.pushAt (Sample.dayStart + 36000000) ["alice"; "bob"]]
    ∧ repo contribution = "zeta-org/app"
    ∧ mkCommit "1111111" "update" "alice" (Sample.dayStart + 36000000)
        ∈ commits contribution.
Proof.
  apply (process_complete 0 Sample.onlyAlice
           [Sample.pushAt (Sample.dayStart + 36000000) ["alice"; "bob"]]
           (Sample.pushAt (Sample.dayStart + 36000000) ["alice"; "bob"])
           [mkPayloadCommit "1111111aaaa" "update" "alice" None;
            mkPayloadCommit "1111111aaaa" "update" "bob" None]
           (mkPayloadCommit "1111111aaaa" "update" "alice" None)).
  - apply list_elem_of_here.
  - by vm_compute.
  - reflexivity.
  - apply list_elem_of_here.
  - apply list_elem_of_here.
Defined.

(** ** The copy of EODProcessor that sorts *)

Section GenericSort.

Context {A : Type} (cmp : A → A → Z).

Lemma js_sort_insert_perm (x : A) (l : list A) :
  JS.sort_insert cmp x l ≡ₚ x :: l.
Proof.
  induction l as [|y l IH]; simpl; [done|].
  destruct (0 <? cmp x y); [|done].
  rewrite IH. apply Permutation_swap.
Qed.

Lemma js_sort_perm (l : list A) : JS.sort cmp l ≡ₚ l.
Proof.
  induction l as [|x l IH]; simpl; [done|].
  rewrite js_sort_insert_perm. by f_equiv.
Qed.

Hypothesis cmp_total : ∀ a b, 0 < cmp a b → cmp b a ≤ 0.
Hypothesis cmp_trans : ∀ a b c, cmp a b ≤ 0 → cmp b c ≤ 0 → cmp a c ≤ 0.

Lemma js_sort_insert_sorted (x : A) (l : list A) :
  StronglySorted (λ a b, cmp a b ≤ 0) l →
  StronglySorted (λ a b, cmp a b ≤ 0) (JS.sort_insert cmp x l).
Proof.
  induction 1 as [|y l Hl IH Hy]; simpl.
  - repeat constructor.
  - destruct (0 <? cmp x y) eqn:E.
    + constructor; [done|].
      rewrite js_sort_insert_perm. constructor; [|done].
      apply cmp_total. lia.
    + constructor; [by constructor|].
      constructor; [lia|].
      eapply Forall_impl; [exact Hy|]. simpl. intros z Hz.
      apply (cmp_trans x y z); [lia|done].
Qed.

Lemma js_sort_sorted (l : list A) :
  StronglySorted (λ a b, cmp a b ≤ 0) (JS.sort cmp l).
Proof.
  induction l as [|x l IH]; simpl; [constructor|].
  by apply js_sort_insert_sorted.
Qed.

End GenericSort.

Lemma upsert_NoDup (repoName : string) (userCommits : list Commit)
    (contributions : list Contribution) :
  NoDup (repo <$> contributions) →
  NoDup (repo <$> upsert repoName userCommits contributions).
Proof.
  intros Hnd. rewrite upsert_repos. unfold Main.Set_add.
  destruct (decide (repoName ∈ repo <$> contributions)); [done|].
  apply NoDup_app. split; [done|]. split; [|apply NoDup_singleton].
  intros x Hx ->%list_elem_of_singleton. done.
Qed.

(** What the loop keeps, for any way [pick] of choosing the commits of an
    event. *)
Lemma grouping_sound (pick : GitHubEvent → list PayloadCommit → list Commit)
    (step : list Contribution → GitHubEvent → list Contribution)
    (filtered : list GitHubEvent) :
  (∀ contributions event,
     step contributions event = contributions
     ∨ ∃ cs, payload_commits event = Some cs ∧ pick event cs ≠ []
             ∧ step contributions event
               = upsert (repo_name event) (pick event cs) contributions) →
  NoDup (repo <$> foldl step [] filtered)
  ∧ ∀ x, x ∈ foldl step [] filtered →
      commits x ≠ []
      ∧ ∀ c, c ∈ commits x →
          ∃ event cs, event ∈ filtered ∧ payload_commits event = Some cs
                      ∧ repo_name event = repo x ∧ c ∈ pick event cs.
Proof.
  intros Hstep.
  assert (Hgen : ∀ l contributions,
    (NoDup (repo <$> contributions)
     ∧ ∀ x, x ∈ contributions →
         commits x ≠ []
         ∧ ∀ c, c ∈ commits x →
             ∃ event cs, event ∈ filtered ∧ payload_commits event = Some cs
                         ∧ repo_name event = repo x ∧ c ∈ pick event cs) →
    (∀ e, e ∈ l → e ∈ filtered) →
    NoDup (repo <$> foldl step contributions l)
    ∧ ∀ x, x ∈ foldl step contributions l →
        commits x ≠ []
        ∧ ∀ c, c ∈ commits x →
            ∃ event cs, event ∈ filtered ∧ payload_commits event = Some cs
                        ∧ repo_name event = repo x ∧ c ∈ pick event cs).
  { induction l as [|e l IH]; intros contributions [Hnd Hinv] Hsub; [done|].
    cbn [foldl]. apply IH; [|intros e' He'; by apply Hsub, list_elem_of_further].
    destruct (Hstep contributions e) as [->|(cs & Hcs & Hne & ->)]; [done|].
    split; [by apply upsert_NoDup|].
    assert (Hnew : ∀ c, c ∈ pick e cs →
              ∃ event cs0, event ∈ filtered ∧ payload_commits event = Some cs0
                           ∧ repo_name event = repo_name e
                           ∧ c ∈ pick event cs0).
    { intros c Hc. exists e, cs. split; [apply Hsub, list_elem_of_here|done]. }
    intros x Hx.
    apply upsert_elem_of in Hx as [Hx|(Hr & [Hc|(x0 & Hx0 & Hr0 & Hc)])].
    - by apply Hinv.
    - rewrite Hc, Hr. done.
    - rewrite Hc, Hr. split.
      + intros [_ ?]%app_eq_nil. done.
      + intros c [Hc0|Hc1]%elem_of_app; [|by apply Hnew].
        rewrite <- Hr0. by apply (Hinv x0). }
  apply Hgen; [|done]. split; [constructor|].
  intros x Hx. by apply elem_of_nil in Hx.
Qed.

Lemma sorted_processEvent_cases (cfg : EODProcessor.Config)
    (contributions : list Contribution) (event : GitHubEvent) :
  ((∀ cs, payload_commits event = Some cs →
          EODProcessorSorted.userCommitsOf cfg event cs = [])
   ∧ EODProcessorSorted.processEvent cfg contributions event = contributions)
  ∨ ∃ cs, payload_commits event = Some cs
          ∧ EODProcessorSorted.userCommitsOf cfg event cs ≠ []
          ∧ EODProcessorSorted.processEvent cfg contributions event
            = upsert (repo_name event)
                (EODProcessorSorted.userCommitsOf cfg event cs) contributions.
Proof.
  unfold EODProcessorSorted.processEvent.
  destruct (payload_commits event) as [cs|]; [|left; by split].
  destruct (EODProcessorSorted.userCommitsOf cfg event cs) as [|c uc] eqn:E.
  - left. split; [|done]. by intros cs' [= <-].
  - right. exists cs. split; [done|]. rewrite E. split; [done|].
    cbn [length Nat.eqb]. apply find_alter_upsert.
Qed.

Lemma sorted_userCommitsOf_elem_of (cfg : EODProcessor.Config)
    (event : GitHubEvent) (cs : list PayloadCommit) (c : Commit) :
  c ∈ EODProcessorSorted.userCommitsOf cfg event cs
  ↔ ∃ pc, c = EODProcessor.toCommit event pc ∧ pc ∈ cs
          ∧ (EODProcessor.targetUsers cfg = []
             ∨ author_name pc ∈ EODProcessor.targetUsers cfg).
Proof.
  unfold EODProcessorSorted.userCommitsOf. rewrite list_elem_of_fmap.
  setoid_rewrite list_elem_of_filter. split.
  - intros (pc & Hc & [Hau Hpc]). exists pc.
    rewrite length_zero_iff_nil in Hau. tauto.
  - intros (pc & Hc & Hpc & Hau). exists pc.
    rewrite length_zero_iff_nil. tauto.
Qed.

(** X16.  The copy of [process] that sorts keeps exactly the commits that
    qualify: a commit is in the Contribution of a repository iff it is built
    from a commit of an event of that repository that passes the filter,
    whose author is a target user or, when no target user is configured, any
    author.  With an empty target-user list every commit of every
    qualifying event is kept. *)
Theorem sorted_process_commits (localeCompare : string → string → Z)
    (tz : Z) (cfg : EODProcessor.Config) (events : list GitHubEvent)
    (r : string) (c : Commit) :
  (∃ contribution,
     contribution ∈ EODProcessorSorted.process localeCompare tz cfg events
     ∧ repo contribution = r ∧ c ∈ commits contribution)
  ↔ ∃ event cs pc,
      event ∈ events ∧ EODProcessor.eventFilter tz cfg event = true
      ∧ repo_name event = r ∧ payload_commits event = Some cs ∧ pc ∈ cs
      ∧ (EODProcessor.targetUsers cfg = []
         ∨ author_name pc ∈ EODProcessor.targetUsers cfg)
      ∧ c = EODProcessor.toCommit event pc.
Proof.
  unfold EODProcessorSorted.process. cbv zeta.
  set (filtered := filter (λ e, EODProcessor.eventFilter tz cfg e) events).
  setoid_rewrite (js_sort_perm (λ a b, localeCompare (repo a) (repo b))).
  split.
  - intros (x & Hx & Hr & Hc).
    destruct (grouping_sound (EODProcessorSorted.userCommitsOf cfg)
                (EODProcessorSorted.processEvent cfg) filtered) as [_ Hs].
    { intros contributions e.
      destruct (sorted_processEvent_cases cfg contributions e)
        as [[_ ?]|(cs & ? & ? & ?)]; [by left|right; by exists cs]. }
    destruct (Hs x Hx) as [_ Hall].
    destruct (Hall c Hc) as (event & cs & Hev & Hcs & Hrepo & Hpick).
    apply sorted_userCommitsOf_elem_of in Hpick as (pc & -> & Hpc & Hau).
    apply list_elem_of_filter in Hev as [Hf Hev].
    exists event, cs, pc. rewrite <- Hr.
    split; [done|]. split; [by apply Is_true_true|done].
  - intros (event & cs & pc & Hev & Hf & Hr & Hcs & Hpc & Hau & ->).
    rewrite <- Hr.
    apply (grouping_complete (EODProcessorSorted.userCommitsOf cfg)
             (EODProcessorSorted.processEvent cfg) filtered) with (cs := cs).
    + intros contributions e.
      destruct (sorted_processEvent_cases cfg contributions e)
        as [?|(cs' & ? & _ & ?)]; [by left|right; by exists cs'].
    + apply list_elem_of_filter. split; [by apply Is_true_true|done].
    + done.
    + apply sorted_userCommitsOf_elem_of. by exists pc.
Qed.

(** X17.  With at least one target user the two copies of [process] differ
    by the final sort only. *)
Theorem sorted_process_agrees (localeCompare : string → string → Z)
    (tz : Z) (cfg : EODProcessor.Config) (events : list GitHubEvent) :
  EODProcessor.targetUsers cfg ≠ [] →
  EODProcessorSorted.process localeCompare tz cfg events
  = JS.sort (λ a b, localeCompare (repo a) (repo b))
      (EODProcessor.process tz cfg events).
Proof.
  intros Hne. unfold EODProcessorSorted.process, EODProcessor.process.
  cbv zeta. f_equal.
  assert (Hstep : ∀ contributions event,
            EODProcessorSorted.processEvent cfg contributions event
            = EODProcessor.processEvent cfg contributions event).
  { intros contributions event.
    unfold EODProcessorSorted.processEvent, EODProcessor.processEvent.
    destruct (payload_commits event) as [cs|]; [|done].
    assert (EODProcessorSorted.userCommitsOf cfg event cs
            = EODProcessor.userCommitsOf cfg event cs) as ->; [|done].
    unfold EODProcessorSorted.userCommitsOf, EODProcessor.userCommitsOf.
    f_equal. apply list_filter_iff. intros pc.
    rewrite length_zero_iff_nil. tauto. }
  generalize (filter (λ e, EODProcessor.eventFilter tz cfg e) events).
  intros l. generalize (@nil Contribution).
  induction l as [|e l IH]; intros acc; [done|].
  cbn [foldl]. by rewrite Hstep, IH.
Qed.

(** X18.  When [localeCompare] is a total preorder on the repository names,
    the copy of [process] that sorts returns the Contributions in ascending
    order of repository name for that comparison, one per repository, none
    with an empty commit list. *)
Theorem sorted_process_sorted (localeCompare : string → string → Z)
    (tz : Z) (cfg : EODProcessor.Config) (events : list GitHubEvent) :
  (∀ a b, 0 < localeCompare a b → localeCompare b a ≤ 0) →
  (∀ a b c, localeCompare a b ≤ 0 → localeCompare b c ≤ 0 →
            localeCompare a c ≤ 0) →
  StronglySorted (λ a b, localeCompare (repo a) (repo b) ≤ 0)
    (EODProcessorSorted.process localeCompare tz cfg events)
  ∧ NoDup (repo <$> EODProcessorSorted.process localeCompare tz cfg events)
  ∧ Forall (λ x, commits x ≠ [])
      (EODProcessorSorted.process localeCompare tz cfg events).
Proof.
  intros Htotal Htrans. unfold EODProcessorSorted.process. cbv zeta.
  set (filtered := filter (λ e, EODProcessor.eventFilter tz cfg e) events).
  destruct (grouping_sound (EODProcessorSorted.userCommitsOf cfg)
              (EODProcessorSorted.processEvent cfg) filtered) as [Hnd Hs].
  { intros contributions e.
    destruct (sorted_processEvent_cases cfg contributions e)
      as [[_ ?]|(cs & ? & ? & ?)]; [by left|right; by exists cs]. }
  split; [|split].
  - apply (js_sort_sorted (λ a b, localeCompare (repo a) (repo b))).
    + intros a b. apply Htotal.
    + intros a b c. apply Htrans.
  - by rewrite js_sort_perm.
  - apply Forall_forall. intros x Hx. rewrite js_sort_perm in Hx.
    by apply Hs.
Qed.

(** ** The order of code units *)

Lemma string_compare_trans (a b c : string) :
  String.compare a b ≠ Gt → String.compare b c ≠ Gt →
  String.compare a c ≠ Gt.
Proof.
  revert b c. induction a as [|x a IH]; intros [|y b] [|z c]; simpl;
    try done.
  unfold Ascii.compare.
  destruct (N.compare_spec (N_of_ascii x) (N_of_ascii y)) as [Hxy|Hxy|Hxy];
    destruct (N.compare_spec (N_of_ascii y) (N_of_ascii z)) as [Hyz|Hyz|Hyz];
    destruct (N.compare_spec (N_of_ascii x) (N_of_ascii z)) as [Hxz|Hxz|Hxz];
    try done; try lia.
  apply IH.
Qed.

Lemma defaultCompare_total (a b : string) :
  0 < JSString.defaultCompare a b → JSString.defaultCompare b a ≤ 0.
Proof.
  unfold JSString.defaultCompare. rewrite (String.compare_antisym a b).
  destruct (String.compare b a); simpl; lia.
Qed.

Lemma defaultCompare_trans (a b c : string) :
  JSString.defaultCompare a b ≤ 0 → JSString.defaultCompare b c ≤ 0 →
  JSString.defaultCompare a c ≤ 0.
Proof.
  unfold JSString.defaultCompare. intros Hab Hbc.
  pose proof (string_compare_trans a b c) as H.
  destruct (String.compare a b); destruct (String.compare b c);
    destruct (String.compare a c); try lia; exfalso; by apply H.
Qed.

(** Only alice is a target user. *)
Lemma sorted_process_agrees_witness :
  EODProcessorSorted.process JSString.defaultCompare 0 Sample.onlyAlice
    [Sample.pushAt (Sample.dayStart + 36000000) ["alice"; "bob"]]
  = JS.sort (λ a b, JSString.defaultCompare (repo a) (repo b))
      (EODProcessor.process 0 Sample.onlyAlice
         [Sample.pushAt (Sample.dayStart + 36000000) ["alice"; "bob"]]).
Proof.
  apply (sorted_process_agrees JSString.defaultCompare 0 Sample.onlyAlice).
  discriminate.
Defined.

(** The comparison by code units is a total preorder. *)
Lemma sorted_process_sorted_witness :
  NoDup (repo <$> EODProcessorSorted.process JSString.defaultCompare 0
                    Sample.everyone
                    [Sample.pushAt (Sample.dayStart + 36000000)
                       ["alice"; "bob"]]).
Proof.
  apply (sorted_process_sorted JSString.defaultCompare 0 Sample.everyone
           [Sample.pushAt (Sample.dayStart + 36000000) ["alice"; "bob"]]).
  - apply defaultCompare_total.
  - apply defaultCompare_trans.
Defined.

(** ** getLatestFile *)

Lemma sorted_last_max {A} (R : A → A → Prop) (l : list A) (x : A) :
  (∀ a, R a a) → StronglySorted R l → last l = Some x →
  ∀ y, y ∈ l → R y x.
Proof.
  intros Hrefl Hs. induction Hs as [|z l Hl IH Hz]; [done|].
  intros Hlast y Hy. destruct l as [|z' l'].
  - simpl in Hlast. injection Hlast as <-.
    apply list_elem_of_singleton in Hy as ->. apply Hrefl.
  - change (last (z :: z' :: l')) with (last (z' :: l')) in Hlast.
    apply elem_of_cons in Hy as [->|Hy]; [|by apply IH].
    apply (proj1 (Forall_forall _ _) Hz).
    rewrite last_Some in Hlast. destruct Hlast as [l'' ->].
    apply elem_of_app. right. apply list_elem_of_here.
Qed.

Lemma defaultCompare_refl (a : string) : JSString.defaultCompare a a ≤ 0.
Proof.
  unfold JSString.defaultCompare.
  pose proof (String.compare_antisym a a) as H.
  destruct (String.compare a a); simpl in *; try lia; discriminate.
Qed.

Lemma getLatestFile_Some_inv (path_join : string → string → string)
    (listing : option (Exn + list string)) (dirPath pattern p : string) :
  FileUtil.getLatestFile path_join listing dirPath pattern = Some p →
  ∃ entries file,
    listing = Some (inr entries) ∧ p = path_join dirPath file
    ∧ file ∈ entries ∧ JSString.startsWith pattern file = true
    ∧ ∀ other, other ∈ entries →
               JSString.startsWith pattern other = true →
               JSString.defaultCompare other file ≤ 0.
Proof.
  unfold FileUtil.getLatestFile.
  destruct listing as [[e|entries]|]; [done| |done].
  set (matching := filter (λ file, JSString.startsWith pattern file) entries).
  set (sorted := JS.sort JSString.defaultCompare matching).
  destruct (length (reverse sorted) =? 0)%nat; [done|].
  rewrite head_reverse.
  destruct (last sorted) as [file|] eqn:Hlast; [|done].
  intros [= <-]. exists entries, file. split; [done|]. split; [done|].
  assert (Hfile : file ∈ matching).
  { unfold sorted in Hlast. rewrite <- (js_sort_perm JSString.defaultCompare).
    apply last_Some in Hlast as [l' ->].
    apply elem_of_app. right. apply list_elem_of_here. }
  apply list_elem_of_filter in Hfile as [Hp Hin].
  split; [done|]. split; [by apply Is_true_true|].
  intros other Hother Hpo.
  apply (sorted_last_max (λ a b, JSString.defaultCompare a b ≤ 0) sorted).
  - apply defaultCompare_refl.
  - apply js_sort_sorted;
      [apply defaultCompare_total|apply defaultCompare_trans].
  - done.
  - unfold sorted. rewrite js_sort_perm. apply list_elem_of_filter.
    split; [by apply Is_true_true|done].
Qed.

Lemma getLatestFile_None_inv (path_join : string → string → string)
    (entries : list string) (dirPath pattern : string) :
  FileUtil.getLatestFile path_join (Some (inr entries)) dirPath pattern = None →
  ∀ file, file ∈ entries → JSString.startsWith pattern file = false.
Proof.
  unfold FileUtil.getLatestFile. cbv zeta.
  set (matching := filter (λ file, JSString.startsWith pattern file) entries).
  set (sorted := JS.sort JSString.defaultCompare matching).
  intros Hnone file Hin.
  assert (sorted = []) as Hs.
  { destruct (reverse sorted) as [|x l] eqn:Hr.
    - apply (f_equal reverse) in Hr. by rewrite reverse_involutive in Hr.
    - discriminate Hnone. }
  destruct (JSString.startsWith pattern file) eqn:Hp; [|done].
  assert (file ∈ sorted) as Hf.
  { unfold sorted. rewrite js_sort_perm. apply list_elem_of_filter.
    split; [by apply Is_true_true|done]. }
  rewrite Hs in Hf. by apply elem_of_nil in Hf.
Qed.

(** X19.  [getLatestFile] answers with a file of the directory whose name
    starts with the pattern and is the greatest such name in the order of
    code units; it answers nothing exactly when the directory is missing,
    cannot be read, or has no such file. *)
Theorem getLatestFile_greatest (path_join : string → string → string)
    (listing : option (Exn + list string)) (dirPath pattern : string) :
  match FileUtil.getLatestFile path_join listing dirPath pattern with
  | Some p =>
      ∃ entries file,
        listing = Some (inr entries) ∧ p = path_join dirPath file
        ∧ file ∈ entries ∧ JSString.startsWith pattern file = true
        ∧ ∀ other, other ∈ entries →
                   JSString.startsWith pattern other = true →
                   JSString.defaultCompare other file ≤ 0
  | None =>
      listing = None ∨ (∃ e, listing = Some (inl e))
      ∨ ∃ entries, listing = Some (inr entries)
                   ∧ ∀ file, file ∈ entries →
                             JSString.startsWith pattern file = false
  end.
Proof.
  destruct (FileUtil.getLatestFile path_join listing dirPath pattern)
    as [p|] eqn:H.
  - by apply getLatestFile_Some_inv.
  - destruct listing as [[e|entries]|]; [right; left; by exists e| |by left].
    right. right. exists entries. split; [done|].
    by apply (getLatestFile_None_inv path_join entries dirPath pattern).
Qed.

(** A directory without summaries. *)
Lemma getLatestFile_greatest_witness :
  JSString.startsWith "eod-summary" "notes.md" = false.
Proof.
  pose proof (getLatestFile_greatest (λ d f, d +:+ "/" +:+ f)
                (Some (inr ["contributions-2023-11-14.txt"; "notes.md"]))
                "reports" "eod-summary") as H.
  simpl in H. destruct H as [H|[[e H]|(entries & H & Hno)]];
    [discriminate H|discriminate H|].
  injection H as <-. apply Hno.
  apply list_elem_of_further, list_elem_of_here.
Defined.

Lemma dated_before_generic (name : string) :
  JSString.startsWith "eod-summary-" name = true →
  JSString.defaultCompare name "eod-summary.txt" ≤ 0.
Proof.
  unfold JSString.startsWith. intros H.
  do 12 (destruct name as [|? name]; [discriminate H|];
         simpl in H;
         match type of H with
         | (if ?d then _ else _) = true =>
             destruct d as [<-|]; [|discriminate H]
         end).
  by vm_compute.
Qed.

(** X20.  The summary files the Reporter writes are [eod-summary.txt] and
    the dated [eod-summary-<date>.txt].  In a directory that holds the
    generic file, and otherwise only dated ones under the pattern
    [eod-summary], [getLatestFile] always answers the generic file,
    whatever the dates. *)
Theorem getLatestFile_generic (path_join : string → string → string)
    (entries : list string) (dirPath : string) :
  "eod-summary.txt" ∈ entries →
  (∀ file, file ∈ entries → JSString.startsWith "eod-summary" file = true →
           file = "eod-summary.txt"
           ∨ JSString.startsWith "eod-summary-" file = true) →
  FileUtil.getLatestFile path_join (Some (inr entries)) dirPath "eod-summary"
  = Some (path_join dirPath "eod-summary.txt").
Proof.
  intros Hgen Hnames.
  destruct (FileUtil.getLatestFile path_join (Some (inr entries)) dirPath
              "eod-summary") as [p|] eqn:H.
  - apply getLatestFile_Some_inv in H
      as (entries' & file & [= <-] & -> & Hin & Hp & Hmax).
    f_equal. f_equal.
    destruct (Hnames file Hin Hp) as [->|Hdated]; [done|].
    pose proof (dated_before_generic file Hdated) as Hle.
    pose proof (Hmax "eod-summary.txt" Hgen eq_refl) as Hge.
    unfold JSString.defaultCompare in Hle, Hge.
    rewrite (String.compare_antisym "eod-summary.txt" file) in Hge.
    destruct (String.compare file "eod-summary.txt") eqn:Hc;
      simpl in Hge; try lia.
    by apply String.compare_eq_iff in Hc.
  - pose proof (getLatestFile_None_inv path_join entries dirPath
                  "eod-summary" H "eod-summary.txt" Hgen) as Hno.
    discriminate Hno.
Qed.

(** A reports directory after two days of runs. *)
Lemma getLatestFile_generic_witness :
  FileUtil.getLatestFile (λ d f, d +:+ "/" +:+ f)
    (Some (inr ["contributions-2023-11-14.txt"; "eod-summary-2023-11-13.txt";
                "eod-summary-2023-11-14.txt"; "eod-summary.txt"]))
    "reports" "eod-summary"
  = Some "reports/eod-summary.txt".
Proof.
  apply (getLatestFile_generic (λ d f, d +:+ "/" +:+ f)).
  - do 3 apply list_elem_of_further. apply list_elem_of_here.
  - intros file Hin Hp.
    repeat (apply elem_of_cons in Hin as [->|Hin];
            [first [discriminate Hp | by left | by right]|]).
    by apply elem_of_nil in Hin.
Defined.

(** ** formatContent *)

Lemma substring_over (n m m' : nat) (s : string) :
  (String.length s ≤ n + m)%nat → (String.length s ≤ n + m')%nat →
  String.substring n m s = String.substring n m' s.
Proof.
  revert n m m'. induction s as [|c s IH]; intros n m m' Hm Hm'.
  - by destruct n, m, m'.
  - destruct n as [|n]; simpl in *.
    + destruct m as [|m]; [lia|]. destruct m' as [|m']; [lia|].
      f_equal. apply IH; lia.
    + apply IH; lia.
Qed.

Lemma substring_all (s : string) :
  String.substring 0 (String.length s) s = s.
Proof. induction s as [|c s IH]; simpl; [done|by f_equal]. Qed.

Lemma append_cons (c : ascii) (a b : string) :
  String c a +:+ b = String c (a +:+ b).
Proof. reflexivity. Qed.

Lemma append_empty_r (a : string) : a +:+ "" = a.
Proof.
  induction a as [|c a IH]; [done|]. by rewrite append_cons, IH.
Qed.

Lemma substring_split (n : nat) (s : string) :
  String.substring 0 n s +:+ String.substring n (String.length s) s = s.
Proof.
  revert n. induction s as [|c s IH]; intros [|n]; simpl; try done.
  - by rewrite substring_all.
  - rewrite (substring_over n (S (String.length s)) (String.length s))
      by lia.
    rewrite append_cons. f_equal. apply IH.
Qed.

Lemma length_substring_to (n : nat) (s : string) :
  String.length (String.substring 0 n s) = (n `min` String.length s)%nat.
Proof.
  revert n. induction s as [|c s IH]; intros [|n]; simpl; try done.
  by rewrite IH.
Qed.

Lemma length_append (a b : string) :
  String.length (a +:+ b) = (String.length a + String.length b)%nat.
Proof.
  induction a as [|c a IH]; [done|]. rewrite append_cons. simpl.
  by rewrite IH.
Qed.

Lemma length_substring_from (n : nat) (s : string) :
  String.length (String.substring n (String.length s) s)
  = (String.length s - n)%nat.
Proof.
  pose proof (f_equal String.length (substring_split n s)) as H.
  rewrite length_append, length_substring_to in H. lia.
Qed.

Lemma get_Some_lt (k : nat) (s : string) (c : ascii) :
  String.get k s = Some c → (k < String.length s)%nat.
Proof.
  revert k. induction s as [|c' s IH]; intros [|k]; simpl; try done;
    [lia|]. intros H. apply IH in H. lia.
Qed.

Lemma lastIndexFrom_range (c : ascii) (s : string) (k : nat) :
  JSString.lastIndexFrom c s k = -1
  ∨ 0 ≤ JSString.lastIndexFrom c s k ≤ Z.of_nat k
    ∧ JSString.lastIndexFrom c s k < Z.of_nat (String.length s).
Proof.
  induction k as [|k IH]; simpl.
  - case_bool_decide as H; [|by left]. right.
    apply get_Some_lt in H. lia.
  - case_bool_decide as H.
    + right. apply get_Some_lt in H. lia.
    + destruct IH as [IH|IH]; [by left|right; lia].
Qed.

Lemma nextEnd_range (max : Z) (s : string) :
  0 < max → (0 < String.length s)%nat →
  1 ≤ WhatsAppService.nextEnd max s ≤ Z.of_nat (String.length s)
  ∧ WhatsAppService.nextEnd max s ≤ max + 1
  ∧ (WhatsAppService.nextEnd max s < Z.of_nat (String.length s) →
     max < 2 * WhatsAppService.nextEnd max s).
Proof.
  intros Hmax Hlen. unfold WhatsAppService.nextEnd. cbv zeta.
  destruct (Z.ltb_spec (Z.min max (Z.of_nat (String.length s)))
              (Z.of_nat (String.length s))) as [Hlt|Hge]; [|lia].
  unfold JSString.lastIndexOf. cbv zeta.
  replace (Z.min (Z.max max 0) (Z.of_nat (String.length s) - 1))
    with max by lia.
  destruct (Z.ltb_spec max 0) as [?|_]; [lia|].
  rewrite Z.gtb_ltb.
  destruct (Z.ltb_spec max
              (2 * JSString.lastIndexFrom JSString.lf s (Z.to_nat max)))
    as [Hbreak|Hno]; [|lia].
  destruct (lastIndexFrom_range JSString.lf s (Z.to_nat max)) as [H|H]; lia.
Qed.

Lemma splitLoop_parts (fuel : nat) (dateStr : string) (max : Z)
    (totalParts : string) :
  0 < max →
  ∀ (remainingContent : string) (partNumber : Z) (messages : list string),
    (String.length remainingContent ≤ fuel)%nat →
    ∃ parts,
      WhatsAppService.splitLoop fuel dateStr max totalParts remainingContent
        partNumber messages
      = Some (messages
              ++ imap (λ i part,
                         WhatsAppService.messageHeader dateStr
                           (partNumber + Z.of_nat i) totalParts +:+ part)
                      parts)
      ∧ foldr String.append "" parts = remainingContent
      ∧ Forall (λ part, 1 ≤ Z.of_nat (String.length part) ≤ max + 1) parts
      ∧ ∀ i part, parts !! i = Some part → (S i < length parts)%nat →
                  max < 2 * Z.of_nat (String.length part).
Proof.
  intros Hmax. induction fuel as [|fuel IH];
    intros remainingContent partNumber messages Hfuel.
  - exists []. destruct remainingContent; [|simpl in Hfuel; lia].
    simpl. rewrite app_nil_r. by repeat split.
  - simpl. destruct (Nat.ltb_spec 0 (String.length remainingContent))
      as [Hpos|Hzero].
    + destruct (nextEnd_range max remainingContent Hmax Hpos)
        as (Hrange & Hcap & Hhalf).
      set (endIndex := WhatsAppService.nextEnd max remainingContent) in *.
      set (part := JSString.substringTo remainingContent endIndex).
      set (rest := JSString.substringFrom remainingContent endIndex).
      assert (Hpart : Z.of_nat (String.length part) = endIndex).
      { unfold part, JSString.substringTo. rewrite length_substring_to. lia. }
      assert (Hrest : Z.of_nat (String.length rest)
                      = Z.of_nat (String.length remainingContent) - endIndex).
      { unfold rest, JSString.substringFrom.
        rewrite length_substring_from. lia. }
      destruct (IH rest (partNumber + 1)
                  (messages
                   ++ [WhatsAppService.messageHeader dateStr partNumber
                         totalParts +:+ part]))
        as (parts & Hrun & Hcat & Hsizes & Hlast); [lia|].
      exists (part :: parts). split; [|split; [|split]].
      * rewrite Hrun, <- app_assoc. do 2 f_equal. simpl.
        rewrite Z.add_0_r. f_equal. apply imap_ext. intros i p _. simpl.
        do 2 f_equal. lia.
      * simpl. rewrite Hcat. apply substring_split.
      * constructor; [lia|done].
      * intros [|i] p Hp Hi; simpl in *.
        -- injection Hp as <-. rewrite Hpart. apply Hhalf.
           destruct parts as [|p' parts']; [simpl in Hi; lia|].
           apply Forall_cons in Hsizes as [Hp' _].
           assert (0 < Z.of_nat (String.length rest)); [|lia].
           rewrite <- Hcat. simpl. rewrite length_append. lia.
        -- apply (Hlast i p Hp). lia.
    + exists []. destruct remainingContent; [|simpl in Hzero; lia].
      simpl. rewrite app_nil_r. by repeat split.
Qed.

(** X21.  When the header leaves room for content (it has fewer than 1500
    characters) [formatContent] returns, and loses nothing: content that
    fits goes out as one message under the plain header; longer content is
    cut into consecutive parts that concatenate to the content, message [i]
    carrying the header of part [i] (counted from 1) and the announced total. *)
Theorem formatContent_lossless (fuel : nat) (dateStr content : string) :
  0 < WhatsAppService.MAX_CONTENT_LENGTH dateStr →
  (String.length content ≤ fuel)%nat →
  ∃ parts,
    foldr String.append "" parts = content
    ∧ WhatsAppService.formatContent fuel dateStr content
      = Some
          (if Z.of_nat (String.length content)
              <=? WhatsAppService.MAX_CONTENT_LENGTH dateStr
           then [WhatsAppService.header dateStr +:+ content]
           else imap (λ i part,
                        WhatsAppService.messageHeader dateStr
                          (Z.of_nat i + 1)
                          (WhatsAppService.totalPartsText
                             (Z.of_nat (String.length content))
                             (WhatsAppService.MAX_CONTENT_LENGTH dateStr))
                        +:+ part)
                     parts).
Proof.
  intros Hmax Hfuel. unfold WhatsAppService.formatContent. cbv zeta.
  destruct (Z.of_nat (String.length content)
            <=? WhatsAppService.MAX_CONTENT_LENGTH dateStr).
  - exists [content]. split; [|done]. simpl.
    apply append_empty_r.
  - destruct (splitLoop_parts fuel dateStr
                (WhatsAppService.MAX_CONTENT_LENGTH dateStr)
                (WhatsAppService.totalPartsText
                   (Z.of_nat (String.length content))
                   (WhatsAppService.MAX_CONTENT_LENGTH dateStr))
                Hmax content 1 [] Hfuel) as (parts & Hrun & Hcat & _).
    exists parts. split; [done|]. rewrite Hrun. simpl. f_equal.
    apply imap_ext. intros i p _. simpl. do 2 f_equal. lia.
Qed.

(** A summary of five characters. *)
Lemma formatContent_lossless_witness :
  ∃ parts,
    foldr String.append "" parts = "hello"
    ∧ WhatsAppService.formatContent 5 Sample.dateStr "hello"
      = Some
          (if Z.of_nat (String.length "hello")
              <=? WhatsAppService.MAX_CONTENT_LENGTH Sample.dateStr
           then [WhatsAppService.header Sample.dateStr +:+ "hello"]
           else imap (λ i part,
                        WhatsAppService.messageHeader Sample.dateStr
                          (Z.of_nat i + 1)
                          (WhatsAppService.totalPartsText
                             (Z.of_nat (String.length "hello"))
                             (WhatsAppService.MAX_CONTENT_LENGTH Sample.dateStr))
                        +:+ part)
                     parts).
Proof.
  apply (formatContent_lossless 5 Sample.dateStr "hello").
  - by vm_compute.
  - simpl. lia.
Defined.

(** X22.  The parts of content that does not fit in one message are never
    empty and have at most [MAX_CONTENT_LENGTH + 1] characters: a part that
    ends with the line break found at index [MAX_CONTENT_LENGTH] is one
    character over the limit.  Every part but the last has more than half
    the limit. *)
Theorem formatContent_part_sizes (fuel : nat) (dateStr content : string) :
  0 < WhatsAppService.MAX_CONTENT_LENGTH dateStr →
  WhatsAppService.MAX_CONTENT_LENGTH dateStr
  < Z.of_nat (String.length content) →
  (String.length content ≤ fuel)%nat →
  ∃ parts,
    WhatsAppService.formatContent fuel dateStr content
    = Some (imap (λ i part,
                    WhatsAppService.messageHeader dateStr (Z.of_nat i + 1)
                      (WhatsAppService.totalPartsText
                         (Z.of_nat (String.length content))
                         (WhatsAppService.MAX_CONTENT_LENGTH dateStr))
                    +:+ part) parts)
    ∧ Forall (λ part,
                1 ≤ Z.of_nat (String.length part)
                  ≤ WhatsAppService.MAX_CONTENT_LENGTH dateStr + 1) parts
    ∧ ∀ i part, parts !! i = Some part → (S i < length parts)%nat →
                WhatsAppService.MAX_CONTENT_LENGTH dateStr
                < 2 * Z.of_nat (String.length part).
Proof.
  intros Hmax Hlong Hfuel. unfold WhatsAppService.formatContent. cbv zeta.
  destruct (Z.leb_spec (Z.of_nat (String.length content))
              (WhatsAppService.MAX_CONTENT_LENGTH dateStr)); [lia|].
  destruct (splitLoop_parts fuel dateStr
              (WhatsAppService.MAX_CONTENT_LENGTH dateStr)
              (WhatsAppService.totalPartsText
                 (Z.of_nat (String.length content))
                 (WhatsAppService.MAX_CONTENT_LENGTH dateStr))
              Hmax content 1 [] Hfuel) as (parts & Hrun & _ & Hsizes & Hlast).
  exists parts. split; [|done]. rewrite Hrun. simpl. f_equal.
  apply imap_ext. intros i p _. simpl. do 2 f_equal. lia.
Qed.

(** A summary of 200 lines of eleven characters. *)
Lemma formatContent_part_sizes_witness :
  ∃ parts,
    WhatsAppService.formatContent 2200 Sample.dateStr Sample.longSummary
    = Some (imap (λ i part,
                    WhatsAppService.messageHeader Sample.dateStr
                      (Z.of_nat i + 1)
                      (WhatsAppService.totalPartsText
                         (Z.of_nat (String.length Sample.longSummary))
                         (WhatsAppService.MAX_CONTENT_LENGTH Sample.dateStr))
                    +:+ part) parts)
    ∧ Forall (λ part,
                1 ≤ Z.of_nat (String.length part)
                  ≤ WhatsAppService.MAX_CONTENT_LENGTH Sample.dateStr + 1)
             parts
    ∧ ∀ i part, parts !! i = Some part → (S i < length parts)%nat →
                WhatsAppService.MAX_CONTENT_LENGTH Sample.dateStr
                < 2 * Z.of_nat (String.length part).
Proof.
  apply (formatContent_part_sizes 2200 Sample.dateStr Sample.longSummary).
  - by vm_compute.
  - by vm_compute.
  - apply Nat.leb_le. by vm_compute.
Defined.

(** ** The day of an event *)

Lemma startOfDay_eq_iff (tz d t : Z) :
  DateJS.startOfDay tz d ≤ t ≤ DateJS.endOfDay tz d
  ↔ DateJS.startOfDay tz t = DateJS.startOfDay tz d.
Proof.
  unfold DateJS.startOfDay, DateJS.endOfDay, DateJS.setHours,
    DateJS.msPerDay. cbv zeta.
  pose proof (Z.div_mod (d + tz) 86400000 ltac:(lia)) as Hd.
  pose proof (Z.mod_pos_bound (d + tz) 86400000 ltac:(lia)) as Hdb.
  pose proof (Z.div_mod (t + tz) 86400000 ltac:(lia)) as Ht.
  pose proof (Z.mod_pos_bound (t + tz) 86400000 ltac:(lia)) as Htb.
  lia.
Qed.

(** X23.  An event is in range exactly when it falls on the local calendar
    day of the configured date, that is when [getStartOfDay] gives the same
    instant for both; hence the days are disjoint: an event in range for two
    dates has these dates on the same day, and then the same events are in
    range for both. *)
Theorem isDateInRange_same_day (tz : Z) (cfg cfg' : EODProcessor.Config)
    (t : Z) :
  (EODProcessor.isDateInRange tz cfg t = true
   ↔ DateJS.startOfDay tz t = DateJS.startOfDay tz (EODProcessor.date cfg))
  ∧ (EODProcessor.isDateInRange tz cfg t = true →
     EODProcessor.isDateInRange tz cfg' t = true →
     ∀ t', EODProcessor.isDateInRange tz cfg t'
           = EODProcessor.isDateInRange tz cfg' t').
Proof.
  assert (Hday : ∀ c u,
            EODProcessor.isDateInRange tz c u = true
            ↔ DateJS.startOfDay tz u
              = DateJS.startOfDay tz (EODProcessor.date c)).
  { intros c u. rewrite isDateInRange_spec. apply startOfDay_eq_iff. }
  split; [apply Hday|].
  intros H1 H2 t'. apply Hday in H1. apply Hday in H2.
  apply eq_true_iff_eq. rewrite !Hday. by rewrite <- H1, <- H2.
Qed.

(** 10:00 is in range for 13:53:20 and for 00:00:00.001 of 2023-11-14. *)
Lemma isDateInRange_same_day_witness :
  EODProcessor.isDateInRange 0 Sample.onlyAlice (Sample.dayStart + 7)
  = EODProcessor.isDateInRange 0
      {| EODProcessor.targetRepos := [];
         EODProcessor.targetUsers := [];
         EODProcessor.date := Sample.dayStart + 1 |} (Sample.dayStart + 7).
Proof.
  apply (isDateInRange_same_day 0 Sample.onlyAlice _
           (Sample.dayStart + 36000000)).
  - by vm_compute.
  - by vm_compute.
Defined.
